(** * Snake: the game engine of [src/components/GameBoard.tsx]

    The React component [SnakeGame] keeps eight pieces of state and three
    effects.  This development embeds the state as a record, every handler
    as a function from the state (and from the render the handler closes
    over) to the next state, and the component as a transition system over
    user and timer events.

    Conventions of the embedding.
    - Coordinates, score and speed are JavaScript numbers that only ever hold
      integers here; they are values of [Z].
    - [Math.floor(Math.random() * GRID_SIZE)] is read from an explicit list
      of draws, one element per call, each element being the value of that
      expression.  A handler that needs more draws than it is given has no
      result ([None]): for the re-roll loop this stands for the loop still
      running.
    - A handler created inside an effect sees the variables of the render in
      which the effect last ran.  The component therefore carries, next to
      the current state, the render captured by the keyboard effect and the
      render captured by the game-loop effect.  Between two events React
      commits the pending updates, renders, and re-runs the effects whose
      dependencies changed. *)

From Stdlib Require Import ZArith List String Bool Lia.
Import ListNotations.
Local Open Scope Z_scope.

(** ** Data model *)

Record Position : Set := mkPosition { x : Z; y : Z }.

Inductive Direction : Set := UP | DOWN | LEFT | RIGHT.

Definition GRID_SIZE : Z := 20.
Definition CELL_SIZE : Z := 20.
Definition INITIAL_SPEED : Z := 150.

(** The [useState] cells of the component.  [foodRef] is the identity of the
    object held in [food]: React compares effect dependencies with
    [Object.is], and every [setFood] in the source stores a freshly built
    object. *)
Record GameState : Set := mkGameState {
  snake : list Position;
  food : Position;
  foodRef : nat;
  direction : Direction;
  gameOver : bool;
  isPaused : bool;
  score : Z;
  highScore : Z;
  speed : Z
}.

Definition setSnake (v : list Position) (s : GameState) : GameState :=
  mkGameState v (food s) (foodRef s) (direction s) (gameOver s) (isPaused s)
              (score s) (highScore s) (speed s).

Definition setFood (v : Position) (s : GameState) : GameState :=
  mkGameState (snake s) v (S (foodRef s)) (direction s) (gameOver s)
              (isPaused s) (score s) (highScore s) (speed s).

Definition setDirection (v : Direction) (s : GameState) : GameState :=
  mkGameState (snake s) (food s) (foodRef s) v (gameOver s) (isPaused s)
              (score s) (highScore s) (speed s).

Definition setGameOver (v : bool) (s : GameState) : GameState :=
  mkGameState (snake s) (food s) (foodRef s) (direction s) v (isPaused s)
              (score s) (highScore s) (speed s).

Definition setIsPaused (v : bool) (s : GameState) : GameState :=
  mkGameState (snake s) (food s) (foodRef s) (direction s) (gameOver s) v
              (score s) (highScore s) (speed s).

Definition setScore (v : Z) (s : GameState) : GameState :=
  mkGameState (snake s) (food s) (foodRef s) (direction s) (gameOver s)
              (isPaused s) v (highScore s) (speed s).

Definition setHighScore (v : Z) (s : GameState) : GameState :=
  mkGameState (snake s) (food s) (foodRef s) (direction s) (gameOver s)
              (isPaused s) (score s) v (speed s).

Definition setSpeed (v : Z) (s : GameState) : GameState :=
  mkGameState (snake s) (food s) (foodRef s) (direction s) (gameOver s)
              (isPaused s) (score s) (highScore s) v.

(** The values given to [useState] at mount. *)
Definition initialState : GameState :=
  {| snake := [mkPosition 10 10];
     food := mkPosition 5 5;
     foodRef := 0;
     direction := RIGHT;
     gameOver := false;
     isPaused := true;
     score := 0;
     highScore := 0;
     speed := INITIAL_SPEED |}.

(** ** Pure helpers of the component *)

(** [a.x === b.x && a.y === b.y] *)
Definition samePos (a b : Position) : bool :=
  (x a =? x b) && (y a =? y b).

Definition dirEqb (a b : Direction) : bool :=
  match a, b with
  | UP, UP | DOWN, DOWN | LEFT, LEFT | RIGHT, RIGHT => true
  | _, _ => false
  end.

Definition opposite (d : Direction) : Direction :=
  match d with
  | UP => DOWN
  | DOWN => UP
  | LEFT => RIGHT
  | RIGHT => LEFT
  end.

(** [generateFood]: two calls of the random source, [x] first. *)
Definition generateFood (draws : list Z) : option (Position * list Z) :=
  match draws with
  | rx :: ry :: rest => Some (mkPosition rx ry, rest)
  | _ => None
  end.

(** [isPositionOccupied], reading [snake] from the render [env] in which the
    function was created. *)
Definition isPositionOccupied (env : GameState) (pos : Position) : bool :=
  existsb (fun segment => samePos segment pos) (snake env).

(** [while (isPositionOccupied(newFood)) newFood = generateFood();] with the
    candidate [newFood] and the draws still unread. *)
Fixpoint rerollWhileOccupied (env : GameState) (newFood : Position)
         (draws : list Z) {struct draws} : option Position :=
  if isPositionOccupied env newFood then
    match draws with
    | rx :: ry :: rest => rerollWhileOccupied env (mkPosition rx ry) rest
    | _ => None
    end
  else Some newFood.

(** [let newFood = generateFood(); while (...) ...] *)
Definition placeFood (env : GameState) (draws : list Z) : option Position :=
  match generateFood draws with
  | Some (newFood, rest) => rerollWhileOccupied env newFood rest
  | None => None
  end.

(** The [switch (direction)] of [moveSnake]. *)
Definition moveHead (d : Direction) (head : Position) : Position :=
  match d with
  | UP => mkPosition (x head) (y head - 1)
  | DOWN => mkPosition (x head) (y head + 1)
  | LEFT => mkPosition (x head - 1) (y head)
  | RIGHT => mkPosition (x head + 1) (y head)
  end.

Definition hitsWall (head : Position) : bool :=
  (x head <? 0) || (x head >=? GRID_SIZE) ||
  (y head <? 0) || (y head >=? GRID_SIZE).

Definition hitsSelf (prevSnake : list Position) (head : Position) : bool :=
  existsb (fun segment => samePos segment head) prevSnake.

(** ** Handlers *)

(** [initGame].  It reads nothing from its render. *)
Definition initGame (draws : list Z) (s : GameState) : option GameState :=
  match generateFood draws with
  | None => None
  | Some (newFood, _) =>
      let s := setSnake [mkPosition 10 10] s in
      let s := setDirection RIGHT s in
      let s := setFood newFood s in
      let s := setGameOver false s in
      let s := setScore 0 s in
      let s := setSpeed INITIAL_SPEED s in
      Some (setIsPaused false s)
  end.

(** [handleKeyDown].  [gameOver] and [direction] are the variables of the
    render [env] the listener was created in; [setIsPaused] is given an
    updater and so reads the state [s] being updated. *)
Definition handleKeyDown (env : GameState) (key : string) (s : GameState)
  : GameState :=
  if gameOver env then s
  else if (key =? "ArrowUp")%string then
    if dirEqb (direction env) DOWN then s else setDirection UP s
  else if (key =? "ArrowDown")%string then
    if dirEqb (direction env) UP then s else setDirection DOWN s
  else if (key =? "ArrowLeft")%string then
    if dirEqb (direction env) RIGHT then s else setDirection LEFT s
  else if (key =? "ArrowRight")%string then
    if dirEqb (direction env) LEFT then s else setDirection RIGHT s
  else if (key =? " ")%string then setIsPaused (negb (isPaused s)) s
  else s.

(** The [onClick] of the Play/Pause button. *)
Definition clickPause (s : GameState) : GameState :=
  setIsPaused (negb (isPaused s)) s.

(** [moveSnake].  [direction], [food], [score] and the [snake] read by
    [isPositionOccupied] belong to the render [env] of the game-loop effect;
    [prevSnake] and the arguments of the other updaters come from the state
    [s] being updated.

    On an empty [prevSnake] the head is [{x: NaN, y: undefined}] (or the
    other way round): every comparison is false, and [[head]] is popped back
    to the empty array. *)
Definition moveSnake (env : GameState) (draws : list Z) (s : GameState)
  : option GameState :=
  let prevSnake := snake s in
  match prevSnake with
  | [] => Some s
  | first :: _ =>
      let head := moveHead (direction env) first in
      if hitsWall head then Some (setGameOver true s)
      else if hitsSelf prevSnake head then Some (setGameOver true s)
      else
        let newSnake := head :: prevSnake in
        if samePos head (food env) then
          match placeFood env draws with
          | None => None
          | Some newFood =>
              let s := setFood newFood s in
              let s := setScore (score s + 10) s in
              let s :=
                if (score env >? 0) && (Z.rem (score env) 50 =? 0)
                then setSpeed (Z.max (speed s - 10) 50) s
                else s in
              Some (setSnake newSnake s)
          end
        else Some (setSnake (removelast newSnake) s)
  end.

(** The high-score effect: [if (gameOver && score > highScore)
    setHighScore(score)].  It reads only its own dependencies, so the render
    it closes over always holds the current values. *)
Definition highScoreEffect (s : GameState) : GameState :=
  if gameOver s && (score s >? highScore s)
  then setHighScore (score s) s
  else s.

(** ** The component *)

Record Component : Set := mkComponent {
  current : GameState;   (* the state of the latest render *)
  keyEnv : GameState;    (* the render captured by the keyboard effect *)
  loopEnv : GameState    (* the render captured by the game-loop effect *)
}.

(** [[direction, gameOver]] unchanged between two renders. *)
Definition sameKeyDeps (a b : GameState) : bool :=
  dirEqb (direction a) (direction b) && Bool.eqb (gameOver a) (gameOver b).

(** [[direction, food, isPaused, gameOver, speed, score]] unchanged between
    two renders. *)
Definition sameLoopDeps (a b : GameState) : bool :=
  dirEqb (direction a) (direction b) &&
  Nat.eqb (foodRef a) (foodRef b) &&
  Bool.eqb (isPaused a) (isPaused b) &&
  Bool.eqb (gameOver a) (gameOver b) &&
  (speed a =? speed b) &&
  (score a =? score b).

(** One render with state [s]: an effect is run again, capturing [s], when
    one of its dependencies differs from the render it last ran in. *)
Definition render (c : Component) (s : GameState) : Component :=
  {| current := s;
     keyEnv := if sameKeyDeps (keyEnv c) s then keyEnv c else s;
     loopEnv := if sameLoopDeps (loopEnv c) s then loopEnv c else s |}.

(** Commit of the state [s] produced by a handler: render, run the
    high-score effect, and render what it produced. *)
Definition commit (c : Component) (s : GameState) : Component :=
  render (render c s) (highScoreEffect s).

(** Mount: first render, every effect runs. *)
Definition mount : Component :=
  {| current := initialState;
     keyEnv := initialState;
     loopEnv := initialState |}.

Inductive Event : Set :=
| KeyDown (key : string)
| Tick (draws : list Z)
| ClickPause
| ClickPlayAgain (draws : list Z)
| ClickRestart (draws : list Z).

(** The game-loop effect returns before [setInterval] when
    [isPaused || gameOver]. *)
Definition loopRunning (c : Component) : bool :=
  negb (isPaused (loopEnv c) || gameOver (loopEnv c)).

(** One event.  Without a running interval no tick fires; the "Play Again"
    button exists only on the game-over overlay. *)
Definition step (c : Component) (e : Event) : option Component :=
  match e with
  | KeyDown key =>
      Some (commit c (handleKeyDown (keyEnv c) key (current c)))
  | Tick draws =>
      if loopRunning c
      then option_map (commit c) (moveSnake (loopEnv c) draws (current c))
      else Some c
  | ClickPause => Some (commit c (clickPause (current c)))
  | ClickPlayAgain draws =>
      if gameOver (current c)
      then option_map (commit c) (initGame draws (current c))
      else Some c
  | ClickRestart draws => option_map (commit c) (initGame draws (current c))
  end.

Fixpoint run (c : Component) (events : list Event) : option Component :=
  match events with
  | [] => Some c
  | e :: rest =>
      match step c e with
      | Some c' => run c' rest
      | None => None
      end
  end.

Definition reachable (c : Component) : Prop :=
  exists events, run mount events = Some c.

(** ** Notions used by the statements *)

Definition inGrid (p : Position) : Prop :=
  0 <= x p < GRID_SIZE /\ 0 <= y p < GRID_SIZE.

(** The key a direction is requested with. *)
Definition keyOf (d : Direction) : string :=
  match d with
  | UP => "ArrowUp"
  | DOWN => "ArrowDown"
  | LEFT => "ArrowLeft"
  | RIGHT => "ArrowRight"
  end.

Definition isArrow (key : string) : bool :=
  ((key =? "ArrowUp") || (key =? "ArrowDown") ||
   (key =? "ArrowLeft") || (key =? "ArrowRight"))%string.

(** A tick of [c] reaches the food: the interval runs, and the moved head
    hits neither a wall nor the snake and lies on the food. *)
Definition eats (c : Component) : bool :=
  loopRunning c &&
  match snake (current c) with
  | [] => false
  | first :: _ =>
      let head := moveHead (direction (current c)) first in
      negb (hitsWall head) && negb (hitsSelf (snake (current c)) head) &&
      samePos head (food (current c))
  end.

(** The event calls [initGame]. *)
Definition restarts (c : Component) (e : Event) : bool :=
  match e with
  | ClickRestart _ => true
  | ClickPlayAgain _ => gameOver (current c)
  | _ => false
  end.

(** The event calls [setFood]. *)
Definition placesFood (c : Component) (e : Event) : bool :=
  match e with
  | Tick _ => eats c
  | _ => restarts c e
  end.

(** The tick of [c] reaches the food while the score it reads is a positive
    multiple of 50. *)
Definition rampDue (c : Component) (e : Event) : bool :=
  match e with
  | Tick _ =>
      eats c && (score (current c) >? 0) && (Z.rem (score (current c)) 50 =? 0)
  | _ => false
  end.

(** The speed an event leaves behind. *)
Definition speedAfter (c : Component) (e : Event) : Z :=
  if restarts c e then INITIAL_SPEED
  else if rampDue c e then Z.max (speed (current c) - 10) 50
  else speed (current c).

(** The directions read by the ticks of a run, in order. *)
Fixpoint tickDirections (c : Component) (events : list Event)
  : list Direction :=
  match events with
  | [] => []
  | e :: rest =>
      let here :=
        match e with
        | Tick _ => if loopRunning c then [direction (loopEnv c)] else []
        | _ => []
        end in
      match step c e with
      | Some c' => here ++ tickDirections c' rest
      | None => here
      end
  end.

(** Events that neither tick nor restart. *)
Definition inputOnly (e : Event) : bool :=
  match e with
  | KeyDown _ | ClickPause => true
  | _ => false
  end.

Fixpoint directionInputs (events : list Event) : nat :=
  match events with
  | [] => 0%nat
  | KeyDown key :: rest =>
      if isArrow key then S (directionInputs rest) else directionInputs rest
  | _ :: rest => directionInputs rest
  end.

(** Cells written out as the draws that produce them. *)
Definition drawsOf (cells : list Position) : list Z :=
  flat_map (fun p => [x p; y p]) cells.

(** The captured renders agree with the current state on the dependencies
    of their effects. *)
Record coherent (c : Component) : Prop := mkCoherent {
  key_direction : direction (keyEnv c) = direction (current c);
  key_gameOver : gameOver (keyEnv c) = gameOver (current c);
  loop_direction : direction (loopEnv c) = direction (current c);
  loop_food : food (loopEnv c) = food (current c);
  loop_foodRef : foodRef (loopEnv c) = foodRef (current c);
  loop_isPaused : isPaused (loopEnv c) = isPaused (current c);
  loop_gameOver : gameOver (loopEnv c) = gameOver (current c);
  loop_speed : speed (loopEnv c) = speed (current c);
  loop_score : score (loopEnv c) = score (current c)
}.

(** Coherent, and the high-score effect has nothing left to do. *)
Definition consistent (c : Component) : Prop :=
  coherent c /\ highScoreEffect (current c) = current c.

(** What a handler may do to the food: leave the object, or store a new
    one. *)
Definition foodStep (s s' : GameState) : Prop :=
  (food s' = food s /\ foodRef s' = foodRef s) \/
  foodRef s' = S (foodRef s).

(** ** Notions used by the further properties *)

(** Two cells next to each other on one axis. *)
Definition adjacent (a b : Position) : Prop :=
  Z.abs (x a - x b) + Z.abs (y a - y b) = 1.

(** Every cell of the list is next to the one that follows it. *)
Fixpoint chain (cells : list Position) : Prop :=
  match cells with
  | a :: (b :: _) as rest => adjacent a b /\ chain rest
  | _ => True
  end.

(** The speed that goes with a score: 150 up to score 50, then 10 less for
    every further 50 points, not below 50. *)
Definition speedFor (points : Z) : Z :=
  if points <=? 0 then INITIAL_SPEED
  else Z.max 50 (INITIAL_SPEED - 10 * ((points - 10) / 50)).

(** What the handlers keep true of the state. *)
Record wellFormed (s : GameState) : Prop := mkWellFormed {
  wf_nonempty : snake s <> [];
  wf_inGrid : Forall inGrid (snake s);
  wf_NoDup : NoDup (snake s);
  wf_chain : chain (snake s);
  wf_score : score s = 10 * (Z.of_nat (List.length (snake s)) - 1);
  wf_speed : speed s = speedFor (score s)
}.

(** Every cell of the grid, column by column. *)
Definition allCells : list Position :=
  flat_map
    (fun i => map (fun j => mkPosition (Z.of_nat i) (Z.of_nat j)) (seq 0 20))
    (seq 0 20).

(** The draws an event hands to its handler, and the range
    [Math.floor(Math.random() * GRID_SIZE)] lies in. *)
Definition eventDraws (e : Event) : list Z :=
  match e with
  | Tick draws | ClickPlayAgain draws | ClickRestart draws => draws
  | _ => []
  end.

Definition validDraws (draws : list Z) : Prop :=
  Forall (fun r => 0 <= r < GRID_SIZE) draws.

Definition validEvents (events : list Event) : Prop :=
  Forall (fun e => validDraws (eventDraws e)) events.

(** The [style] objects of the render: the board and the absolutely
    positioned food and snake segments inside it. *)
Record Box : Set := mkBox {
  boxLeft : Z;
  boxTop : Z;
  boxWidth : Z;
  boxHeight : Z
}.

Definition boardBox : Box :=
  mkBox 0 0 (GRID_SIZE * CELL_SIZE) (GRID_SIZE * CELL_SIZE).

Definition foodBox (s : GameState) : Box :=
  mkBox (x (food s) * CELL_SIZE) (y (food s) * CELL_SIZE)
        (CELL_SIZE - 2) (CELL_SIZE - 2).

Definition segmentBox (segment : Position) : Box :=
  mkBox (x segment * CELL_SIZE) (y segment * CELL_SIZE)
        (CELL_SIZE - 1) (CELL_SIZE - 1).

(** [snake.map((segment, index) => ...)]: the class that depends on the
    index, and the box. *)
Fixpoint segmentViews (index : nat) (cells : list Position)
  : list (string * Box) :=
  match cells with
  | [] => []
  | segment :: rest =>
      ((if Nat.eqb index 0 then "bg-green-600" else "bg-green-500")%string,
       segmentBox segment)
        :: segmentViews (S index) rest
  end.

Definition snakeViews (s : GameState) : list (string * Box) :=
  segmentViews 0 (snake s).

Definition inside (inner outer : Box) : Prop :=
  boxLeft outer <= boxLeft inner /\
  boxLeft inner + boxWidth inner <= boxLeft outer + boxWidth outer /\
  boxTop outer <= boxTop inner /\
  boxTop inner + boxHeight inner <= boxTop outer + boxHeight outer.

Definition overlap (a b : Box) : Prop :=
  boxLeft a < boxLeft b + boxWidth b /\ boxLeft b < boxLeft a + boxWidth a /\
  boxTop a < boxTop b + boxHeight b /\ boxTop b < boxTop a + boxHeight a.

(** ** Scenarios *)

(** A running game: not paused, not over, both effects set up in the
    current render. *)
Definition playing (body : list Position) (target : Position)
           (d : Direction) (points best interval : Z) : Component :=
  let s := mkGameState body target 0 d false false points best interval in
  mkComponent s s s.

(** Head at (0,5), facing LEFT. *)
Definition atLeftWall : Component :=
  playing [mkPosition 0 5] (mkPosition 5 5) LEFT 0 0 150.

(** Snake at (10,10) facing RIGHT, food at (11,10). *)
Definition beforeFood : Component :=
  playing [mkPosition 10 10] (mkPosition 11 10) RIGHT 0 0 150.

(** The component after a run from mount. *)
Definition afterEvents (events : list Event) : Component :=
  match run mount events with
  | Some c => c
  | None => mount
  end.

(** The component after one more event. *)
Definition afterStep (c : Component) (e : Event) : Component :=
  match step c e with
  | Some c' => c'
  | None => c
  end.

(** Restart with the food right ahead, then eat four times in a row, the
    next food always placed right ahead again. *)
Definition fourMeals : list Event :=
  [ClickRestart [11; 10]; Tick [12; 10]; Tick [13; 10]; Tick [14; 10];
   Tick [15; 10]].

Definition scored40 : Component := afterEvents fourMeals.
Definition scored50 : Component := afterEvents (fourMeals ++ [Tick [16; 10]]).
Definition scored60 : Component :=
  afterEvents (fourMeals ++ [Tick [16; 10]; Tick [17; 10]]).

(** Restart with the food right ahead and eat it: a snake of two cells,
    [(11,10); (10,10)], moving RIGHT. *)
Definition twoCells : list Event :=
  [ClickRestart [11; 10]; Tick [3; 4]].

(** Then two arrow keys before the next tick. *)
Definition neckTurn : list Event :=
  twoCells ++ [KeyDown "ArrowUp"; KeyDown "ArrowLeft"; Tick []].

(** Start the game and run straight into the right wall. *)
Definition intoRightWall : list Event :=
  KeyDown " " :: repeat (Tick []) 10.

Definition crashed : Component := afterEvents intoRightWall.

(** Start, turn up, five ticks, turn left, four ticks: the head is at
    (6,5), right of the mount-time food, and the game-loop effect last ran
    when the snake was at (10,5). *)
Definition chase : list Event :=
  [KeyDown " "; KeyDown "ArrowUp"] ++ repeat (Tick []) 5 ++
  [KeyDown "ArrowLeft"] ++ repeat (Tick []) 4.

Definition nextToFood : Component := afterEvents chase.

(** Game over with score 90 below the high score 120. *)
Definition lostBelowBest : Component :=
  let s := mkGameState [mkPosition 19 10] (mkPosition 5 5) 0 RIGHT true false
                       90 120 150 in
  mkComponent s s s.

(** A running game with score 40, high score 0, head at the right wall. *)
Definition leadingAtWall : Component :=
  playing [mkPosition 19 10] (mkPosition 5 5) RIGHT 40 0 150.

(** Closed goals about concrete runs are settled by evaluation. *)
Ltac evaluate :=
  repeat match goal with
         | |- _ /\ _ => split
         end;
  vm_compute; reflexivity.

(** ** Basic facts *)

Lemma samePos_eq (a b : Position) : samePos a b = true <-> a = b.
Proof.
  destruct a as [ax ay], b as [bx by']. unfold samePos. simpl.
  rewrite andb_true_iff, !Z.eqb_eq. split.
  - intros [-> ->]. reflexivity.
  - intros H. inversion H. auto.
Qed.

Lemma samePos_neq (a b : Position) : samePos a b = false <-> a <> b.
Proof.
  rewrite <- samePos_eq. destruct (samePos a b); split; congruence.
Qed.

Lemma dirEqb_eq (a b : Direction) : dirEqb a b = true <-> a = b.
Proof. destruct a, b; simpl; split; congruence. Qed.

Lemma dirEqb_refl (d : Direction) : dirEqb d d = true.
Proof. destruct d; reflexivity. Qed.

Lemma opposite_neq (d : Direction) : d <> opposite d.
Proof. destruct d; discriminate. Qed.

Lemma hitsSelf_In (l : list Position) (p : Position) :
  hitsSelf l p = true <-> In p l.
Proof.
  unfold hitsSelf. rewrite existsb_exists. split.
  - intros [q [Hq Hs]]. apply samePos_eq in Hs. subst. assumption.
  - intros H. exists p. split; [assumption | now apply samePos_eq].
Qed.

Lemma hitsSelf_not_In (l : list Position) (p : Position) :
  hitsSelf l p = false <-> ~ In p l.
Proof.
  rewrite <- hitsSelf_In. destruct (hitsSelf l p); split; congruence.
Qed.

Lemma hitsWall_inGrid (p : Position) : hitsWall p = false <-> inGrid p.
Proof.
  unfold hitsWall, inGrid, GRID_SIZE.
  rewrite !orb_false_iff, !Z.ltb_ge, !Z.geb_leb, !Z.leb_gt. lia.
Qed.

Lemma hitsWall_outside (p : Position) : hitsWall p = true <-> ~ inGrid p.
Proof.
  rewrite <- hitsWall_inGrid. destruct (hitsWall p); split; congruence.
Qed.

Lemma removelast_cons_length {A : Type} (a : A) (l : list A) :
  List.length (removelast (a :: l)) = List.length l.
Proof.
  revert a. induction l as [| b l IH]; intros a; [reflexivity |].
  change (removelast (a :: b :: l)) with (a :: removelast (b :: l)).
  cbn [List.length]. f_equal. apply IH.
Qed.

Lemma sameKeyDeps_spec (a b : GameState) :
  sameKeyDeps a b = true ->
  direction a = direction b /\ gameOver a = gameOver b.
Proof.
  unfold sameKeyDeps. rewrite andb_true_iff, dirEqb_eq, eqb_true_iff. tauto.
Qed.

Lemma sameLoopDeps_spec (a b : GameState) :
  sameLoopDeps a b = true ->
  direction a = direction b /\ foodRef a = foodRef b /\
  isPaused a = isPaused b /\ gameOver a = gameOver b /\
  speed a = speed b /\ score a = score b.
Proof.
  unfold sameLoopDeps.
  rewrite !andb_true_iff, dirEqb_eq, Nat.eqb_eq, !eqb_true_iff, !Z.eqb_eq.
  tauto.
Qed.

Lemma sameKeyDeps_complete (a b : GameState) :
  direction a = direction b -> gameOver a = gameOver b ->
  sameKeyDeps a b = true.
Proof.
  intros Hd Hg. unfold sameKeyDeps. rewrite Hd, Hg, dirEqb_refl.
  now destruct (gameOver b).
Qed.

Lemma sameLoopDeps_complete (a b : GameState) :
  direction a = direction b -> foodRef a = foodRef b ->
  isPaused a = isPaused b -> gameOver a = gameOver b ->
  speed a = speed b -> score a = score b ->
  sameLoopDeps a b = true.
Proof.
  intros Hd Hf Hp Hg Hs Hc. unfold sameLoopDeps.
  rewrite Hd, Hf, Hp, Hg, Hs, Hc, dirEqb_refl, Nat.eqb_refl, !Z.eqb_refl.
  now destruct (isPaused b), (gameOver b).
Qed.

(** ** The high-score effect and the commit *)

Lemma highScoreEffect_fields (s : GameState) :
  snake (highScoreEffect s) = snake s /\
  food (highScoreEffect s) = food s /\
  foodRef (highScoreEffect s) = foodRef s /\
  direction (highScoreEffect s) = direction s /\
  gameOver (highScoreEffect s) = gameOver s /\
  isPaused (highScoreEffect s) = isPaused s /\
  score (highScoreEffect s) = score s /\
  speed (highScoreEffect s) = speed s.
Proof.
  unfold highScoreEffect.
  destruct (gameOver s && (score s >? highScore s)); repeat split.
Qed.

Lemma highScoreEffect_highScore (s : GameState) :
  highScore (highScoreEffect s) =
  if gameOver s then Z.max (score s) (highScore s) else highScore s.
Proof.
  unfold highScoreEffect. destruct (gameOver s); simpl; [| reflexivity].
  destruct (score s >? highScore s) eqn:E; simpl.
  - apply Z.gtb_lt in E. lia.
  - rewrite Z.gtb_ltb in E. apply Z.ltb_ge in E. lia.
Qed.

Lemma highScoreEffect_idem (s : GameState) :
  highScoreEffect (highScoreEffect s) = highScoreEffect s.
Proof.
  destruct (gameOver s && (score s >? highScore s)) eqn:E.
  - assert (highScoreEffect s = setHighScore (score s) s) as ->
        by (unfold highScoreEffect; now rewrite E).
    assert ((score s >? score s) = false) as Hirr
        by (rewrite Z.gtb_ltb; apply Z.ltb_irrefl).
    unfold highScoreEffect. simpl. rewrite Hirr, andb_false_r. reflexivity.
  - assert (highScoreEffect s = s) as ->
        by (unfold highScoreEffect; now rewrite E).
    unfold highScoreEffect. now rewrite E.
Qed.

Lemma highScoreEffect_playing (s : GameState) :
  gameOver s = false -> highScoreEffect s = s.
Proof. intros H. unfold highScoreEffect. now rewrite H. Qed.

Lemma current_commit (c : Component) (s : GameState) :
  current (commit c s) = highScoreEffect s.
Proof. reflexivity. Qed.

(** Every field but [highScore] passes through a commit unchanged. *)
Lemma snake_commit (c : Component) (s : GameState) :
  snake (current (commit c s)) = snake s.
Proof. rewrite current_commit. apply (highScoreEffect_fields s). Qed.

Lemma food_commit (c : Component) (s : GameState) :
  food (current (commit c s)) = food s.
Proof. rewrite current_commit. apply (highScoreEffect_fields s). Qed.

Lemma foodRef_commit (c : Component) (s : GameState) :
  foodRef (current (commit c s)) = foodRef s.
Proof. rewrite current_commit. apply (highScoreEffect_fields s). Qed.

Lemma direction_commit (c : Component) (s : GameState) :
  direction (current (commit c s)) = direction s.
Proof. rewrite current_commit. apply (highScoreEffect_fields s). Qed.

Lemma gameOver_commit (c : Component) (s : GameState) :
  gameOver (current (commit c s)) = gameOver s.
Proof. rewrite current_commit. apply (highScoreEffect_fields s). Qed.

Lemma isPaused_commit (c : Component) (s : GameState) :
  isPaused (current (commit c s)) = isPaused s.
Proof. rewrite current_commit. apply (highScoreEffect_fields s). Qed.

Lemma score_commit (c : Component) (s : GameState) :
  score (current (commit c s)) = score s.
Proof. rewrite current_commit. apply (highScoreEffect_fields s). Qed.

Lemma speed_commit (c : Component) (s : GameState) :
  speed (current (commit c s)) = speed s.
Proof. rewrite current_commit. apply (highScoreEffect_fields s). Qed.

Ltac committed :=
  rewrite ?snake_commit, ?food_commit, ?foodRef_commit, ?direction_commit,
    ?gameOver_commit, ?isPaused_commit, ?score_commit, ?speed_commit.

Lemma foodStep_refl (s : GameState) : foodStep s s.
Proof. left. split; reflexivity. Qed.

Lemma render_coherent (c : Component) (s : GameState) :
  coherent c -> foodStep (current c) s -> coherent (render c s).
Proof.
  intros H Hf. unfold render. constructor; simpl.
  1-2: destruct (sameKeyDeps (keyEnv c) s) eqn:E;
       [apply sameKeyDeps_spec in E; tauto | reflexivity].
  all: destruct (sameLoopDeps (loopEnv c) s) eqn:E; [| reflexivity];
       apply sameLoopDeps_spec in E; try tauto.
  destruct E as (_ & Href & _). pose proof (loop_foodRef c H) as Hc.
  destruct Hf as [[Hfood Href'] | Hbump].
  - rewrite Hfood. apply (loop_food c H).
  - rewrite Hbump, Hc in Href.
    exfalso. revert Href. apply Nat.neq_succ_diag_r.
Qed.

Lemma commit_consistent (c : Component) (s : GameState) :
  coherent c -> foodStep (current c) s -> consistent (commit c s).
Proof.
  intros H Hf. split.
  - unfold commit. apply render_coherent.
    + now apply render_coherent.
    + simpl. left. pose proof (highScoreEffect_fields s). tauto.
  - rewrite current_commit. apply highScoreEffect_idem.
Qed.

(** A commit of the unchanged state of a consistent component changes
    nothing. *)
Lemma render_same (c : Component) :
  coherent c -> render c (current c) = c.
Proof.
  intros [k1 k2 l1 l2 l3 l4 l5 l6 l7]. unfold render.
  rewrite sameKeyDeps_complete, sameLoopDeps_complete by assumption.
  destruct c; reflexivity.
Qed.

Lemma commit_same (c : Component) :
  consistent c -> commit c (current c) = c.
Proof.
  intros [H Hs]. unfold commit. rewrite Hs, (render_same c H).
  apply render_same, H.
Qed.

(** ** What the handlers do to the food object *)

Lemma handleKeyDown_foodStep (env : GameState) (key : string) (s : GameState) :
  foodStep s (handleKeyDown env key s).
Proof.
  unfold handleKeyDown.
  repeat match goal with
         | |- context [if ?b then _ else _] => destruct b
         end; left; split; reflexivity.
Qed.

Lemma initGame_foodStep (draws : list Z) (s s' : GameState) :
  initGame draws s = Some s' -> foodStep s s'.
Proof.
  unfold initGame. destruct (generateFood draws) as [[newFood rest] |];
    [| discriminate].
  intros H. injection H as <-. right. reflexivity.
Qed.

Lemma moveSnake_foodStep (env : GameState) (draws : list Z) (s s' : GameState) :
  moveSnake env draws s = Some s' -> foodStep s s'.
Proof.
  unfold moveSnake. destruct (snake s) as [| first rest] eqn:Hsnake.
  - intros H. injection H as <-. apply foodStep_refl.
  - destruct (hitsWall _);
      [intros H; injection H as <-; left; split; reflexivity |].
    destruct (hitsSelf _ _);
      [intros H; injection H as <-; left; split; reflexivity |].
    destruct (samePos _ _).
    + destruct (placeFood env draws) as [newFood |]; [| discriminate].
      intros H. injection H as <-. right.
      destruct ((score env >? 0) && (Z.rem (score env) 50 =? 0)); reflexivity.
    + intros H. injection H as <-. left; split; reflexivity.
Qed.

(** ** Consistency is an invariant *)

Lemma step_consistent (c : Component) (e : Event) (c' : Component) :
  consistent c -> step c e = Some c' -> consistent c'.
Proof.
  intros Hc. pose proof Hc as [H _].
  destruct e as [key | draws | | draws | draws]; simpl.
  - intros E. injection E as <-. apply commit_consistent;
      [assumption | apply handleKeyDown_foodStep].
  - destruct (loopRunning c); [| intros E; injection E as <-; assumption].
    destruct (moveSnake (loopEnv c) draws (current c)) as [s' |] eqn:M;
      [| discriminate].
    intros E. injection E as <-. apply commit_consistent;
      [assumption | eapply moveSnake_foodStep; eassumption].
  - intros E. injection E as <-. apply commit_consistent;
      [assumption | left; split; reflexivity].
  - destruct (gameOver (current c));
      [| intros E; injection E as <-; assumption].
    destruct (initGame draws (current c)) as [s' |] eqn:M; [| discriminate].
    intros E. injection E as <-. apply commit_consistent;
      [assumption | eapply initGame_foodStep; eassumption].
  - destruct (initGame draws (current c)) as [s' |] eqn:M; [| discriminate].
    intros E. injection E as <-. apply commit_consistent;
      [assumption | eapply initGame_foodStep; eassumption].
Qed.

Lemma run_invariant (P : Component -> Prop) :
  (forall c e c', P c -> step c e = Some c' -> P c') ->
  forall events c c', P c -> run c events = Some c' -> P c'.
Proof.
  intros Hstep. induction events as [| e rest IH]; intros c c' Hc; simpl.
  - intros E. injection E as <-. assumption.
  - destruct (step c e) as [c1 |] eqn:S1; [| discriminate].
    apply IH. eapply Hstep; eassumption.
Qed.

Lemma run_app (c : Component) (xs ys : list Event) :
  run c (xs ++ ys) =
  match run c xs with
  | Some c' => run c' ys
  | None => None
  end.
Proof.
  revert c. induction xs as [| e xs IH]; intros c; simpl; [reflexivity |].
  destruct (step c e); [apply IH | reflexivity].
Qed.

Lemma mount_consistent : consistent mount.
Proof. split; [constructor |]; reflexivity. Qed.

Lemma run_consistent (events : list Event) (c c' : Component) :
  consistent c -> run c events = Some c' -> consistent c'.
Proof. apply (run_invariant consistent). apply step_consistent. Qed.

Lemma reachable_consistent (c : Component) : reachable c -> consistent c.
Proof.
  intros [events H].
  eapply run_consistent; [apply mount_consistent | eassumption].
Qed.

(** ** The three outcomes of [moveSnake] *)

Section MoveSnake.

Variables (env s : GameState) (draws : list Z).
Variables (first : Position) (rest : list Position).
Hypothesis Hsnake : snake s = first :: rest.

Lemma moveSnake_collision :
  hitsWall (moveHead (direction env) first) = true \/
  hitsSelf (snake s) (moveHead (direction env) first) = true ->
  moveSnake env draws s = Some (setGameOver true s).
Proof.
  intros H. unfold moveSnake. rewrite Hsnake in *.
  destruct (hitsWall (moveHead (direction env) first)); [reflexivity |].
  destruct H as [H | H]; [discriminate | now rewrite H].
Qed.

Lemma moveSnake_move :
  hitsWall (moveHead (direction env) first) = false ->
  hitsSelf (snake s) (moveHead (direction env) first) = false ->
  samePos (moveHead (direction env) first) (food env) = false ->
  moveSnake env draws s =
  Some (setSnake (removelast (moveHead (direction env) first :: snake s)) s).
Proof.
  intros Hw Hb Hf. unfold moveSnake. rewrite Hsnake in *.
  now rewrite Hw, Hb, Hf.
Qed.

Lemma moveSnake_eat :
  hitsWall (moveHead (direction env) first) = false ->
  hitsSelf (snake s) (moveHead (direction env) first) = false ->
  samePos (moveHead (direction env) first) (food env) = true ->
  moveSnake env draws s =
  match placeFood env draws with
  | None => None
  | Some newFood =>
      let s1 := setScore (score s + 10) (setFood newFood s) in
      Some (setSnake (moveHead (direction env) first :: snake s)
              (if (score env >? 0) && (Z.rem (score env) 50 =? 0)
               then setSpeed (Z.max (speed s - 10) 50) s1
               else s1))
  end.
Proof.
  intros Hw Hb Hf. unfold moveSnake. rewrite Hsnake in *.
  now rewrite Hw, Hb, Hf.
Qed.

End MoveSnake.

(** ** The re-roll loop *)

Lemma rerollWhileOccupied_free (env : GameState) (p : Position) :
  forall (n : nat) (draws : list Z) (newFood : Position),
    (List.length draws <= n)%nat ->
    rerollWhileOccupied env newFood draws = Some p ->
    isPositionOccupied env p = false.
Proof.
  induction n as [| n IH]; intros draws newFood Hlen;
    destruct draws as [| rx [| ry rest]]; simpl;
    destruct (isPositionOccupied env newFood) eqn:Occ;
    try discriminate; try (intros E; injection E as <-; assumption).
  - simpl in Hlen. lia.
  - apply IH. simpl in Hlen. lia.
Qed.

(** The cell the loop leaves with is free in the snake of the captured
    render. *)
Lemma placeFood_free (env : GameState) (draws : list Z) (p : Position) :
  placeFood env draws = Some p -> isPositionOccupied env p = false.
Proof.
  unfold placeFood. destruct (generateFood draws) as [[newFood rest] |];
    [| discriminate].
  apply (rerollWhileOccupied_free env p (List.length rest)). lia.
Qed.

Lemma rerollWhileOccupied_finds (env : GameState) (p : Position)
      (rest : list Z) :
  isPositionOccupied env p = false ->
  forall (cells : list Position) (newFood : Position),
    isPositionOccupied env newFood = true ->
    Forall (fun q => isPositionOccupied env q = true) cells ->
    rerollWhileOccupied env newFood (drawsOf cells ++ x p :: y p :: rest)
    = Some p.
Proof.
  intros Hfree. induction cells as [| q cells IH]; intros newFood Hocc Hall.
  - simpl. rewrite Hocc. destruct p as [a b]. simpl.
    destruct rest; simpl; now rewrite Hfree.
  - inversion Hall as [| ? ? Hq Hrest]; subst.
    change (drawsOf (q :: cells) ++ x p :: y p :: rest)
      with (x q :: y q :: (drawsOf cells ++ x p :: y p :: rest)).
    simpl. rewrite Hocc. destruct q as [a b]. simpl. now apply IH.
Qed.

(** The loop ends as soon as the draws hold a free cell: after any number
    of occupied candidates the first free one is returned. *)
Lemma placeFood_finds (env : GameState) (cells : list Position)
      (p : Position) (rest : list Z) :
  Forall (fun q => isPositionOccupied env q = true) cells ->
  isPositionOccupied env p = false ->
  placeFood env (drawsOf cells ++ x p :: y p :: rest) = Some p.
Proof.
  intros Hall Hfree. destruct cells as [| q cells].
  - destruct p as [a b]. unfold placeFood. simpl.
    destruct rest; simpl; now rewrite Hfree.
  - inversion Hall as [| ? ? Hq Hrest]; subst.
    unfold placeFood. destruct q as [a b]. simpl.
    now apply rerollWhileOccupied_finds.
Qed.

(** ** Ticks *)

Lemma step_tick_running (c : Component) (draws : list Z) :
  loopRunning c = true ->
  step c (Tick draws) =
  option_map (commit c) (moveSnake (loopEnv c) draws (current c)).
Proof. intros H. simpl. now rewrite H. Qed.

Lemma loopRunning_playing (c : Component) :
  coherent c -> loopRunning c = true ->
  isPaused (current c) = false /\ gameOver (current c) = false.
Proof.
  intros H. unfold loopRunning.
  rewrite (loop_isPaused c H), (loop_gameOver c H).
  destruct (isPaused (current c)), (gameOver (current c)); simpl;
    intros; split; congruence.
Qed.

(** C2. A tick whose moved head leaves the grid on either axis, or lies on a
    cell of the snake as it is before the tick (the tail included), sets
    [gameOver] and keeps snake, food, score, speed, direction and pause
    flag. *)
Theorem tick_collision_ends_game
        (c : Component) (draws : list Z)
        (first : Position) (rest : list Position) :
  coherent c ->
  loopRunning c = true ->
  snake (current c) = first :: rest ->
  ~ inGrid (moveHead (direction (current c)) first) \/
  In (moveHead (direction (current c)) first) (snake (current c)) ->
  exists c',
    step c (Tick draws) = Some c' /\
    gameOver (current c') = true /\
    snake (current c') = snake (current c) /\
    food (current c') = food (current c) /\
    score (current c') = score (current c) /\
    speed (current c') = speed (current c) /\
    direction (current c') = direction (current c) /\
    isPaused (current c') = isPaused (current c).
Proof.
  intros H Hrun Hsnake Hhit.
  exists (commit c (setGameOver true (current c))). split.
  - rewrite step_tick_running by assumption.
    rewrite (moveSnake_collision _ _ draws first rest Hsnake); [reflexivity |].
    rewrite (loop_direction c H).
    destruct Hhit as [Hw | Hb]; [left | right].
    + now apply hitsWall_outside.
    + now apply hitsSelf_In.
  - rewrite current_commit.
    pose proof (highScoreEffect_fields (setGameOver true (current c))) as F.
    simpl in F. intuition.
Qed.

Lemma tick_collision_ends_game_witness :
  exists c',
    step atLeftWall (Tick []) = Some c' /\
    gameOver (current c') = true /\
    snake (current c') = snake (current atLeftWall) /\
    food (current c') = food (current atLeftWall) /\
    score (current c') = score (current atLeftWall) /\
    speed (current c') = speed (current atLeftWall) /\
    direction (current c') = direction (current atLeftWall) /\
    isPaused (current c') = isPaused (current atLeftWall).
Proof.
  apply (tick_collision_ends_game atLeftWall [] (mkPosition 0 5) []).
  - constructor; reflexivity.
  - reflexivity.
  - reflexivity.
  - left. unfold inGrid. simpl. lia.
Defined.

(** C3. A tick that does not end the game keeps the length of the snake when
    the moved head is not the food cell, and prepends the head to the whole
    snake (length plus one) when it is; the length never decreases.  The
    tick that does not eat always completes; the tick that eats completes
    when its re-roll loop does. *)
Theorem tick_length
        (c : Component) (draws : list Z)
        (first : Position) (rest : list Position) :
  coherent c ->
  loopRunning c = true ->
  snake (current c) = first :: rest ->
  inGrid (moveHead (direction (current c)) first) ->
  ~ In (moveHead (direction (current c)) first) (snake (current c)) ->
  (moveHead (direction (current c)) first <> food (current c) ->
   exists c',
     step c (Tick draws) = Some c' /\
     gameOver (current c') = false /\
     snake (current c') =
       removelast
         (moveHead (direction (current c)) first :: snake (current c)) /\
     List.length (snake (current c')) = List.length (snake (current c))) /\
  (moveHead (direction (current c)) first = food (current c) ->
   forall newFood,
     placeFood (loopEnv c) draws = Some newFood ->
     exists c',
       step c (Tick draws) = Some c' /\
       gameOver (current c') = false /\
       snake (current c') =
         moveHead (direction (current c)) first :: snake (current c) /\
       List.length (snake (current c')) =
         S (List.length (snake (current c)))) /\
  (forall c',
     step c (Tick draws) = Some c' ->
     gameOver (current c') = false /\
     (List.length (snake (current c)) <= List.length (snake (current c')))%nat).
Proof.
  intros H Hrun Hsnake Hgrid Hbody.
  destruct (loopRunning_playing c H Hrun) as [_ Hover].
  apply hitsWall_inGrid in Hgrid. apply hitsSelf_not_In in Hbody.
  rewrite <- (loop_direction c H) in *.
  rewrite <- (loop_food c H).
  rewrite step_tick_running by assumption.
  assert (Hmove :
            samePos (moveHead (direction (loopEnv c)) first) (food (loopEnv c))
            = false ->
            exists c',
              option_map (commit c) (moveSnake (loopEnv c) draws (current c))
              = Some c' /\
              gameOver (current c') = false /\
              snake (current c') =
                removelast (moveHead (direction (loopEnv c)) first
                                     :: snake (current c)) /\
              List.length (snake (current c')) =
                List.length (snake (current c))).
  { intros Hf.
    rewrite (moveSnake_move _ _ draws first rest Hsnake Hgrid Hbody Hf).
    eexists. split; [reflexivity |]. rewrite current_commit.
    match goal with
    | |- context [highScoreEffect ?s] =>
        pose proof (highScoreEffect_fields s) as F
    end.
    destruct F as (-> & _ & _ & _ & -> & _). simpl.
    repeat split; [assumption | apply removelast_cons_length]. }
  assert (Heat :
            samePos (moveHead (direction (loopEnv c)) first) (food (loopEnv c))
            = true ->
            forall newFood,
              placeFood (loopEnv c) draws = Some newFood ->
              exists c',
                option_map (commit c) (moveSnake (loopEnv c) draws (current c))
                = Some c' /\
                gameOver (current c') = false /\
                snake (current c') =
                  moveHead (direction (loopEnv c)) first :: snake (current c) /\
                List.length (snake (current c')) =
                  S (List.length (snake (current c)))).
  { intros Hf newFood Hplace.
    rewrite (moveSnake_eat _ _ draws first rest Hsnake Hgrid Hbody Hf), Hplace.
    eexists. split; [reflexivity |]. rewrite current_commit.
    match goal with
    | |- context [highScoreEffect ?s] =>
        pose proof (highScoreEffect_fields s) as F
    end.
    destruct F as (-> & _ & _ & _ & -> & _).
    destruct ((score (loopEnv c) >? 0) && (Z.rem (score (loopEnv c)) 50 =? 0));
      simpl; repeat split; assumption. }
  split; [| split].
  - intros Hne. apply Hmove. now apply samePos_neq.
  - intros Heq. apply Heat. now apply samePos_eq.
  - intros c' Hstep.
    destruct (samePos (moveHead (direction (loopEnv c)) first)
                      (food (loopEnv c))) eqn:Hf.
    + destruct (placeFood (loopEnv c) draws) as [newFood |] eqn:Hplace.
      * destruct (Heat eq_refl newFood eq_refl) as (c1 & E1 & G1 & _ & L1).
        rewrite Hstep in E1. injection E1 as <-. split; [assumption | lia].
      * rewrite (moveSnake_eat _ _ draws first rest Hsnake Hgrid Hbody Hf),
          Hplace in Hstep. discriminate.
    + destruct (Hmove eq_refl) as (c1 & E1 & G1 & _ & L1).
      rewrite Hstep in E1. injection E1 as <-. split; [assumption | lia].
Qed.

Lemma tick_length_witness :
  exists c',
    step beforeFood (Tick [3; 4]) = Some c' /\
    gameOver (current c') = false /\
    snake (current c') = [mkPosition 11 10; mkPosition 10 10] /\
    List.length (snake (current c')) = 2%nat.
Proof.
  destruct (tick_length beforeFood [3; 4] (mkPosition 10 10) [])
    as (_ & Heat & _).
  - constructor; reflexivity.
  - reflexivity.
  - reflexivity.
  - unfold inGrid, GRID_SIZE. simpl. lia.
  - simpl. intros [E | []]. discriminate.
  - apply (Heat eq_refl (mkPosition 3 4)). reflexivity.
Defined.

(** ** What a tick leaves alone *)

Lemma eats_head (c : Component) (first : Position) (rest : list Position) :
  coherent c -> loopRunning c = true -> snake (current c) = first :: rest ->
  eats c =
  negb (hitsWall (moveHead (direction (loopEnv c)) first)) &&
  negb (hitsSelf (snake (current c))
                 (moveHead (direction (loopEnv c)) first)) &&
  samePos (moveHead (direction (loopEnv c)) first) (food (loopEnv c)).
Proof.
  intros H Hrun Hsnake. unfold eats.
  rewrite Hrun, (loop_direction c H), (loop_food c H), Hsnake. reflexivity.
Qed.

(** A tick that does not reach the food changes at most the snake and
    [gameOver]. *)
Lemma moveSnake_not_eating (c : Component) (draws : list Z) (s' : GameState) :
  coherent c -> loopRunning c = true -> eats c = false ->
  moveSnake (loopEnv c) draws (current c) = Some s' ->
  food s' = food (current c) /\ foodRef s' = foodRef (current c) /\
  direction s' = direction (current c) /\
  isPaused s' = isPaused (current c) /\ score s' = score (current c) /\
  highScore s' = highScore (current c) /\ speed s' = speed (current c).
Proof.
  intros H Hrun Heats.
  destruct (snake (current c)) as [| first rest] eqn:Hsnake.
  - unfold moveSnake. rewrite Hsnake. intros E. injection E as <-.
    repeat split.
  - rewrite (eats_head c first rest H Hrun Hsnake) in Heats.
    destruct (hitsWall (moveHead (direction (loopEnv c)) first)) eqn:Hw.
    { rewrite (moveSnake_collision _ _ draws first rest Hsnake) by (now left).
      intros E. injection E as <-. repeat split. }
    destruct (hitsSelf (snake (current c))
                       (moveHead (direction (loopEnv c)) first)) eqn:Hb.
    { rewrite (moveSnake_collision _ _ draws first rest Hsnake) by (now right).
      intros E. injection E as <-. repeat split. }
    simpl in Heats.
    rewrite (moveSnake_move _ _ draws first rest Hsnake Hw Hb Heats).
    intros E. injection E as <-. repeat split.
Qed.

(** A tick that reaches the food. *)
Lemma moveSnake_eating (c : Component) (draws : list Z) (s' : GameState) :
  coherent c -> loopRunning c = true -> eats c = true ->
  moveSnake (loopEnv c) draws (current c) = Some s' ->
  exists first rest newFood,
    snake (current c) = first :: rest /\
    placeFood (loopEnv c) draws = Some newFood /\
    snake s' = moveHead (direction (current c)) first :: snake (current c) /\
    food s' = newFood /\ foodRef s' = S (foodRef (current c)) /\
    direction s' = direction (current c) /\
    gameOver s' = gameOver (current c) /\
    isPaused s' = isPaused (current c) /\
    score s' = score (current c) + 10 /\
    highScore s' = highScore (current c) /\
    speed s' =
      (if (score (current c) >? 0) && (Z.rem (score (current c)) 50 =? 0)
       then Z.max (speed (current c) - 10) 50
       else speed (current c)).
Proof.
  intros H Hrun Heats.
  destruct (snake (current c)) as [| first rest] eqn:Hsnake.
  - unfold eats in Heats. rewrite Hsnake, andb_false_r in Heats. discriminate.
  - rewrite (eats_head c first rest H Hrun Hsnake) in Heats.
    apply andb_true_iff in Heats. destruct Heats as [Heats Hf].
    apply andb_true_iff in Heats. destruct Heats as [Hw Hb].
    apply negb_true_iff in Hw, Hb.
    rewrite (moveSnake_eat _ _ draws first rest Hsnake Hw Hb Hf).
    destruct (placeFood (loopEnv c) draws) as [newFood |]; [| discriminate].
    intros E. injection E as <-. exists first, rest, newFood.
    rewrite (loop_direction c H), (loop_score c H).
    destruct ((score (current c) >? 0) && (Z.rem (score (current c)) 50 =? 0));
      simpl; rewrite ?Hsnake; repeat split.
Qed.

(** The speed after any event. *)
Lemma step_speed (c : Component) (e : Event) (c' : Component) :
  coherent c -> step c e = Some c' ->
  speed (current c') = speedAfter c e.
Proof.
  intros H. unfold speedAfter.
  assert (Hinit : forall draws,
             option_map (commit c) (initGame draws (current c)) = Some c' ->
             speed (current c') = INITIAL_SPEED).
  { intros draws. unfold initGame.
    destruct (generateFood draws) as [[newFood rest] |]; [| discriminate].
    simpl. intros E. injection E as <-. now rewrite speed_commit. }
  destruct e as [key | draws | | draws | draws]; simpl.
  - intros E. injection E as <-. rewrite speed_commit.
    unfold handleKeyDown.
    repeat match goal with
           | |- context [if ?b then _ else _] => destruct b
           end; reflexivity.
  - destruct (loopRunning c) eqn:Hrun.
    2: { intros E. injection E as <-. unfold eats. now rewrite Hrun. }
    destruct (moveSnake (loopEnv c) draws (current c)) as [s' |] eqn:M;
      [| discriminate].
    simpl. intros E. injection E as <-. rewrite speed_commit.
    destruct (eats c) eqn:Heats.
    + destruct (moveSnake_eating c draws s' H Hrun Heats M)
        as (first & rest & newFood
            & _ & _ & _ & _ & _ & _ & _ & _ & _ & _ & ->).
      reflexivity.
    + simpl. apply (moveSnake_not_eating c draws s' H Hrun Heats M).
  - intros E. injection E as <-. now rewrite speed_commit.
  - destruct (gameOver (current c)); [apply Hinit |].
    intros E. injection E as <-. reflexivity.
  - apply Hinit.
Qed.

Lemma speedAfter_range (c : Component) (e : Event) :
  50 <= speed (current c) <= 150 -> 50 <= speedAfter c e <= 150.
Proof.
  intros Hs. unfold speedAfter, INITIAL_SPEED.
  destruct (restarts c e); [lia |]. destruct (rampDue c e); lia.
Qed.

Lemma reachable_speed (c : Component) :
  reachable c -> 50 <= speed (current c) <= 150.
Proof.
  intros [events Hrun].
  enough (consistent c /\ 50 <= speed (current c) <= 150) by tauto.
  revert Hrun.
  apply (run_invariant
           (fun c => consistent c /\ 50 <= speed (current c) <= 150)).
  - intros c0 e c1 [Hc Hs] Hstep. split.
    + eapply step_consistent; eassumption.
    + rewrite (step_speed c0 e c1 (proj1 Hc) Hstep).
      now apply speedAfter_range.
  - split; [apply mount_consistent |].
    unfold mount, initialState, INITIAL_SPEED. simpl. lia.
Qed.

(** C4, as the code has it. The speed stays within 50 and 150. An event
    that is not a restart lowers it, by 10 and not below 50, exactly when it
    is a tick that reaches the food while the score before that tick's
    increment is a positive multiple of 50; any other event keeps it, and a
    restart sets it to 150. *)
Theorem speed_ramp (c : Component) (e : Event) (c' : Component) :
  reachable c ->
  step c e = Some c' ->
  50 <= speed (current c) <= 150 /\
  50 <= speed (current c') <= 150 /\
  speed (current c') = speedAfter c e /\
  (restarts c e = true -> speed (current c') = 150) /\
  (restarts c e = false -> speed (current c') <= speed (current c)) /\
  (speed (current c') < speed (current c) ->
   restarts c e = false /\ rampDue c e = true /\
   speed (current c') = Z.max (speed (current c) - 10) 50).
Proof.
  intros Hreach Hstep.
  pose proof (reachable_speed c Hreach) as Hs.
  pose proof (reachable_consistent c Hreach) as [H _].
  pose proof (step_speed c e c' H Hstep) as E.
  pose proof (speedAfter_range c e Hs) as Hs'.
  rewrite <- E in Hs'. split; [assumption |]. split; [assumption |].
  split; [assumption |]. unfold speedAfter, INITIAL_SPEED in E.
  destruct (restarts c e), (rampDue c e);
    (split; [| split]); intros; try discriminate; try lia;
    repeat split; lia.
Qed.

Lemma speed_ramp_witness :
  50 <= speed (current scored50) <= 150 /\
  50 <= speed (current scored60) <= 150 /\
  speed (current scored60) = speedAfter scored50 (Tick [17; 10]) /\
  (restarts scored50 (Tick [17; 10]) = true ->
   speed (current scored60) = 150) /\
  (restarts scored50 (Tick [17; 10]) = false ->
   speed (current scored60) <= speed (current scored50)) /\
  (speed (current scored60) < speed (current scored50) ->
   restarts scored50 (Tick [17; 10]) = false /\
   rampDue scored50 (Tick [17; 10]) = true /\
   speed (current scored60) = Z.max (speed (current scored50) - 10) 50).
Proof.
  apply (speed_ramp scored50 (Tick [17; 10]) scored60).
  - exists (fourMeals ++ [Tick [16; 10]]). vm_compute. reflexivity.
  - vm_compute. reflexivity.
Defined.

(** C4, as stated, fails. The tick that lifts the score from 40 to 50 leaves
    the speed at 150 although the new score is a positive multiple of 50; the
    tick that lifts it from 50 to 60 lowers the speed to 140 although the
    new score is not. *)
Lemma speed_ramp_on_new_score_fails :
  run mount fourMeals = Some scored40 /\
  step scored40 (Tick [16; 10]) = Some scored50 /\
  eats scored40 = true /\
  score (current scored50) = 50 /\
  (score (current scored50) >? 0) && (Z.rem (score (current scored50)) 50 =? 0)
  = true /\
  speed (current scored40) = 150 /\
  speed (current scored50) = 150 /\
  step scored50 (Tick [17; 10]) = Some scored60 /\
  eats scored50 = true /\
  score (current scored60) = 60 /\
  (score (current scored60) >? 0) && (Z.rem (score (current scored60)) 50 =? 0)
  = false /\
  speed (current scored60) = 140.
Proof. evaluate. Qed.

(** ** Direction inputs *)

Lemma handleKeyDown_direction (env : GameState) (key : string) (s : GameState) :
  direction env = direction s ->
  direction (handleKeyDown env key s) <> opposite (direction s).
Proof.
  intros Hd. unfold handleKeyDown. rewrite Hd.
  destruct (gameOver env); [apply opposite_neq |].
  repeat match goal with
         | |- context [if (?k =? ?lit)%string then _ else _] =>
             destruct (k =? lit)%string
         end;
    destruct (direction s) eqn:D; simpl; rewrite ?D; discriminate.
Qed.

Lemma handleKeyDown_not_arrow (env : GameState) (key : string) (s : GameState) :
  isArrow key = false ->
  direction (handleKeyDown env key s) = direction s.
Proof.
  unfold isArrow, handleKeyDown. rewrite !orb_false_iff.
  intros [[[-> ->] ->] ->].
  destruct (gameOver env); [reflexivity |].
  destruct (key =? " ")%string; reflexivity.
Qed.

Lemma handleKeyDown_accepted (env : GameState) (d : Direction) (s : GameState) :
  gameOver env = false -> d <> opposite (direction env) ->
  handleKeyDown env (keyOf d) s = setDirection d s.
Proof.
  intros Hg Hd. unfold handleKeyDown. rewrite Hg.
  destruct d, (direction env); simpl in *; congruence.
Qed.

Lemma handleKeyDown_refused (env : GameState) (d : Direction) (s : GameState) :
  d = opposite (direction env) \/ gameOver env = true ->
  handleKeyDown env (keyOf d) s = s.
Proof.
  intros [-> | Hg]; unfold handleKeyDown.
  - destruct (gameOver env); [reflexivity |].
    destruct (direction env); reflexivity.
  - now rewrite Hg.
Qed.

Lemma moveSnake_direction
      (env : GameState) (draws : list Z) (s s' : GameState) :
  moveSnake env draws s = Some s' -> direction s' = direction s.
Proof.
  unfold moveSnake. destruct (snake s) as [| first rest].
  - intros E. now injection E as <-.
  - destruct (hitsWall _); [intros E; now injection E as <- |].
    destruct (hitsSelf _ _); [intros E; now injection E as <- |].
    destruct (samePos _ _); [| intros E; now injection E as <-].
    destruct (placeFood env draws); [| discriminate].
    intros E. injection E as <-.
    destruct ((score env >? 0) && (Z.rem (score env) 50 =? 0)); reflexivity.
Qed.

Lemma step_tick_direction (c : Component) (draws : list Z) (c' : Component) :
  step c (Tick draws) = Some c' ->
  direction (current c') = direction (current c).
Proof.
  simpl. destruct (loopRunning c); [| intros E; now injection E as <-].
  destruct (moveSnake (loopEnv c) draws (current c)) as [s' |] eqn:M;
    [| discriminate].
  intros E. injection E as <-. rewrite direction_commit.
  eapply moveSnake_direction. eassumption.
Qed.

(** An input never turns the direction state round. *)
Lemma step_input_direction (c : Component) (e : Event) (c' : Component) :
  coherent c -> inputOnly e = true -> step c e = Some c' ->
  direction (current c') <> opposite (direction (current c)).
Proof.
  intros H. destruct e as [key | | | |]; try discriminate; intros _; simpl;
    intros E; injection E as <-; rewrite direction_commit.
  - apply handleKeyDown_direction, (key_direction c H).
  - apply opposite_neq.
Qed.

(** Inputs other than arrow keys keep the direction state. *)
Lemma run_quiet_direction (events : list Event) :
  forall c c',
    forallb inputOnly events = true -> directionInputs events = 0%nat ->
    run c events = Some c' ->
    direction (current c') = direction (current c).
Proof.
  induction events as [| e rest IH]; intros c c'; simpl.
  - intros _ _ E. now injection E as <-.
  - destruct e as [key | | | |]; simpl; try discriminate.
    + destruct (isArrow key) eqn:A; [discriminate |].
      intros Hin Hcount Hrun. rewrite (IH _ _ Hin Hcount Hrun).
      rewrite direction_commit. now apply handleKeyDown_not_arrow.
    + intros Hin Hcount Hrun. rewrite (IH _ _ Hin Hcount Hrun).
      now rewrite direction_commit.
Qed.

(** With at most one arrow key among them, inputs never turn the direction
    state round. *)
Lemma run_inputs_direction (events : list Event) :
  forall c c',
    consistent c ->
    forallb inputOnly events = true -> (directionInputs events <= 1)%nat ->
    run c events = Some c' ->
    direction (current c') <> opposite (direction (current c)).
Proof.
  induction events as [| e rest IH]; intros c c' Hc; simpl.
  - intros _ _ E. injection E as <-. apply opposite_neq.
  - intros Hin Hcount. apply andb_true_iff in Hin. destruct Hin as [He Hin].
    destruct (step c e) as [c1 |] eqn:S1; [| discriminate].
    intros Hrun.
    pose proof (step_consistent c e c1 Hc S1) as Hc1.
    destruct e as [key | | | |]; try discriminate.
    + destruct (isArrow key) eqn:A.
      * rewrite (run_quiet_direction rest c1 c' Hin) by (assumption || lia).
        apply (step_input_direction c (KeyDown key) c1 (proj1 Hc) eq_refl S1).
      * assert (direction (current c1) = direction (current c)) as <-.
        { simpl in S1. injection S1 as <-. rewrite direction_commit.
          now apply handleKeyDown_not_arrow. }
        now apply IH.
    + assert (direction (current c1) = direction (current c)) as <-.
      { simpl in S1. injection S1 as <-. now rewrite direction_commit. }
      now apply IH.
Qed.

(** X19. An accepted direction input is written to the direction state at
    once, and both effects capture it in the same commit.  The direction
    read by a tick is not the opposite of the direction read by the tick
    before it when the events between the two are inputs with at most one
    arrow key among them. *)
Theorem direction_between_ticks (c : Component) :
  consistent c ->
  (forall d,
      gameOver (current c) = false ->
      d <> opposite (direction (current c)) ->
      exists c',
        step c (KeyDown (keyOf d)) = Some c' /\
        direction (current c') = d /\
        direction (keyEnv c') = d /\
        direction (loopEnv c') = d) /\
  (forall draws c1 between c2,
      step c (Tick draws) = Some c1 ->
      forallb inputOnly between = true ->
      (directionInputs between <= 1)%nat ->
      run c1 between = Some c2 ->
      direction (loopEnv c2) <> opposite (direction (loopEnv c))).
Proof.
  intros Hc. pose proof Hc as [H _]. split.
  - intros d Hg Hd. eexists. split; [reflexivity |].
    assert (Hcur : direction
                     (current (commit c (handleKeyDown (keyEnv c) (keyOf d)
                                                       (current c)))) = d).
    { rewrite direction_commit, handleKeyDown_accepted; [reflexivity | |].
      - now rewrite (key_gameOver c H).
      - now rewrite (key_direction c H). }
    assert (Hc' : consistent
                    (commit c (handleKeyDown (keyEnv c) (keyOf d) (current c))))
      by (apply commit_consistent;
          [assumption | apply handleKeyDown_foodStep]).
    destruct Hc' as [H' _].
    rewrite (key_direction _ H'), (loop_direction _ H'). auto.
  - intros draws c1 between c2 Htick Hin Hcount Hrun.
    pose proof (step_consistent _ _ _ Hc Htick) as Hc1.
    pose proof (run_consistent _ _ _ Hc1 Hrun) as [H2 _].
    rewrite (loop_direction c2 H2), (loop_direction c H).
    rewrite <- (step_tick_direction c draws c1 Htick).
    now apply (run_inputs_direction between).
Qed.

Lemma direction_between_ticks_witness :
  direction
    (loopEnv (afterEvents [KeyDown " "; Tick []; KeyDown "ArrowUp"]))
  <> opposite (direction (loopEnv (afterEvents [KeyDown " "]))).
Proof.
  destruct (direction_between_ticks (afterEvents [KeyDown " "])) as [_ H].
  - split; [constructor |]; vm_compute; reflexivity.
  - apply (H [] (afterEvents [KeyDown " "; Tick []]) [KeyDown "ArrowUp"]).
    + vm_compute. reflexivity.
    + vm_compute. reflexivity.
    + simpl. lia.
    + vm_compute. reflexivity.
Defined.

(** C5 at its failing input. A snake of two cells moves RIGHT; ArrowUp and
    ArrowLeft arrive before the next tick.  Each key passes its guard, the
    second one against the direction the first has already stored, so the
    tick reads LEFT, the opposite of what the tick before it read, and the
    head runs into the neck: the game is over. *)
Theorem reversal_into_neck :
  run mount twoCells = Some (afterEvents twoCells) /\
  snake (current (afterEvents twoCells))
  = [mkPosition 11 10; mkPosition 10 10] /\
  direction (current (afterEvents twoCells)) = RIGHT /\
  direction (current (afterEvents (twoCells ++ [KeyDown "ArrowUp"]))) = UP /\
  direction
    (current
       (afterEvents (twoCells ++ [KeyDown "ArrowUp"; KeyDown "ArrowLeft"])))
  = LEFT /\
  gameOver
    (current
       (afterEvents (twoCells ++ [KeyDown "ArrowUp"; KeyDown "ArrowLeft"])))
  = false /\
  run mount neckTurn = Some (afterEvents neckTurn) /\
  tickDirections mount neckTurn = [RIGHT; opposite RIGHT] /\
  gameOver (current (afterEvents neckTurn)) = true /\
  snake (current (afterEvents neckTurn))
  = [mkPosition 11 10; mkPosition 10 10].
Proof. evaluate. Qed.

(** C6. A direction request for the opposite of the current direction, and
    any direction request while the game is over, changes nothing. *)
Theorem opposite_or_over_is_noop (c : Component) (d : Direction) :
  consistent c ->
  d = opposite (direction (current c)) \/ gameOver (current c) = true ->
  step c (KeyDown (keyOf d)) = Some c /\
  handleKeyDown (keyEnv c) (keyOf d) (current c) = current c.
Proof.
  intros Hc Hd. pose proof Hc as [H _].
  assert (E : handleKeyDown (keyEnv c) (keyOf d) (current c) = current c).
  { apply handleKeyDown_refused.
    now rewrite (key_direction c H), (key_gameOver c H). }
  split; [| exact E]. simpl. rewrite E. now rewrite commit_same.
Qed.

Lemma opposite_or_over_is_noop_witness :
  (step mount (KeyDown (keyOf LEFT)) = Some mount /\
   handleKeyDown (keyEnv mount) (keyOf LEFT) (current mount) = current mount) /\
  (step lostBelowBest (KeyDown (keyOf UP)) = Some lostBelowBest /\
   handleKeyDown (keyEnv lostBelowBest) (keyOf UP) (current lostBelowBest)
   = current lostBelowBest).
Proof.
  split.
  - apply (opposite_or_over_is_noop mount LEFT).
    + apply mount_consistent.
    + left. reflexivity.
  - apply (opposite_or_over_is_noop lostBelowBest UP).
    + split; [constructor |]; reflexivity.
    + right. reflexivity.
Defined.

(** ** Pause *)

(** The space key: nothing while the game is over, otherwise the pause
    flag is flipped and nothing else in the state changes. *)
Lemma space_toggles (c : Component) :
  consistent c ->
  (gameOver (current c) = true -> step c (KeyDown " ") = Some c) /\
  (gameOver (current c) = false ->
   exists c',
     step c (KeyDown " ") = Some c' /\
     current c' = setIsPaused (negb (isPaused (current c))) (current c)).
Proof.
  intros Hc. pose proof Hc as [H _]. split; intros Hg; simpl;
    unfold handleKeyDown; rewrite (key_gameOver c H), Hg; simpl.
  - now rewrite commit_same.
  - eexists. split; [reflexivity |]. rewrite current_commit.
    apply highScoreEffect_playing. exact Hg.
Qed.

(** The Play/Pause button flips the pause flag in every state. *)
Lemma clickPause_flips (c : Component) :
  exists c',
    step c ClickPause = Some c' /\
    isPaused (current c') = negb (isPaused (current c)) /\
    gameOver (current c') = gameOver (current c).
Proof.
  eexists. split; [reflexivity |]. now rewrite isPaused_commit, gameOver_commit.
Qed.

(** C7 at its failing input. After the snake has run into the right wall
    the space key changes nothing, and the Play/Pause button still flips the
    pause flag. *)
Theorem pause_button_after_game_over :
  run mount intoRightWall = Some crashed /\
  gameOver (current crashed) = true /\
  isPaused (current crashed) = false /\
  step crashed (KeyDown " ") = Some crashed /\
  option_map (fun c' => isPaused (current c')) (step crashed ClickPause)
  = Some true /\
  option_map (fun c' => gameOver (current c')) (step crashed ClickPause)
  = Some true.
Proof. evaluate. Qed.

(** ** High score *)

Lemma handleKeyDown_kept (env : GameState) (key : string) (s : GameState) :
  food (handleKeyDown env key s) = food s /\
  foodRef (handleKeyDown env key s) = foodRef s /\
  score (handleKeyDown env key s) = score s /\
  highScore (handleKeyDown env key s) = highScore s.
Proof.
  unfold handleKeyDown.
  repeat match goal with
         | |- context [if ?b then _ else _] => destruct b
         end; repeat split.
Qed.

Lemma moveSnake_highScore
      (env : GameState) (draws : list Z) (s s' : GameState) :
  moveSnake env draws s = Some s' -> highScore s' = highScore s.
Proof.
  unfold moveSnake. destruct (snake s) as [| first rest].
  - intros E. now injection E as <-.
  - destruct (hitsWall _); [intros E; now injection E as <- |].
    destruct (hitsSelf _ _); [intros E; now injection E as <- |].
    destruct (samePos _ _); [| intros E; now injection E as <-].
    destruct (placeFood env draws); [| discriminate].
    intros E. injection E as <-.
    destruct ((score env >? 0) && (Z.rem (score env) 50 =? 0)); reflexivity.
Qed.

Lemma initGame_result (draws : list Z) (s s' : GameState) :
  initGame draws s = Some s' ->
  exists rx ry rest,
    draws = rx :: ry :: rest /\
    s' = mkGameState [mkPosition 10 10] (mkPosition rx ry) (S (foodRef s))
                     RIGHT false false 0 (highScore s) INITIAL_SPEED.
Proof.
  unfold initGame. destruct draws as [| rx [| ry rest]]; try discriminate.
  simpl. intros E. injection E as <-. exists rx, ry, rest. split; reflexivity.
Qed.

(** An event either leaves the component as it is or commits a state in
    which the handler has kept the high score. *)
Lemma step_shape (c : Component) (e : Event) (c' : Component) :
  step c e = Some c' ->
  c' = c \/
  exists s, c' = commit c s /\ highScore s = highScore (current c).
Proof.
  destruct e as [key | draws | | draws | draws]; simpl.
  - intros E. injection E as <-. right. eexists. split; [reflexivity |].
    apply handleKeyDown_kept.
  - destruct (loopRunning c); [| intros E; injection E as <-; now left].
    destruct (moveSnake (loopEnv c) draws (current c)) as [s' |] eqn:M;
      [| discriminate].
    intros E. injection E as <-. right. exists s'. split; [reflexivity |].
    eapply moveSnake_highScore. eassumption.
  - intros E. injection E as <-. right. eexists. split; reflexivity.
  - destruct (gameOver (current c)); [| intros E; injection E as <-; now left].
    destruct (initGame draws (current c)) as [s' |] eqn:M; [| discriminate].
    intros E. injection E as <-. right. exists s'. split; [reflexivity |].
    destruct (initGame_result _ _ _ M) as (rx & ry & rest & _ & ->).
    reflexivity.
  - destruct (initGame draws (current c)) as [s' |] eqn:M; [| discriminate].
    intros E. injection E as <-. right. exists s'. split; [reflexivity |].
    destruct (initGame_result _ _ _ M) as (rx & ry & rest & _ & ->).
    reflexivity.
Qed.

Lemma highScore_commit (c : Component) (s : GameState) :
  highScore (current (commit c s)) =
  if gameOver s then Z.max (score s) (highScore s) else highScore s.
Proof. rewrite current_commit. apply highScoreEffect_highScore. Qed.

Lemma step_highScore_le (c : Component) (e : Event) (c' : Component) :
  step c e = Some c' -> highScore (current c) <= highScore (current c').
Proof.
  intros Hstep. destruct (step_shape c e c' Hstep) as [-> | (s & -> & Hs)].
  - lia.
  - rewrite highScore_commit, Hs. destruct (gameOver s); lia.
Qed.

Lemma run_highScore_le (events : list Event) (c c' : Component) :
  run c events = Some c' -> highScore (current c) <= highScore (current c').
Proof.
  apply (run_invariant
           (fun c1 => highScore (current c) <= highScore (current c1)));
    [| lia].
  intros c1 e c2 Hle Hstep. pose proof (step_highScore_le c1 e c2 Hstep). lia.
Qed.

Lemma step_restart (c : Component) (e : Event) (c' : Component) :
  restarts c e = true -> step c e = Some c' ->
  exists rx ry rest,
    (e = ClickRestart (rx :: ry :: rest) \/
     e = ClickPlayAgain (rx :: ry :: rest)) /\
    current c' =
      mkGameState [mkPosition 10 10] (mkPosition rx ry)
                  (S (foodRef (current c))) RIGHT false false 0
                  (highScore (current c)) INITIAL_SPEED.
Proof.
  assert (Hinit : forall draws,
             option_map (commit c) (initGame draws (current c)) = Some c' ->
             exists rx ry rest,
               draws = rx :: ry :: rest /\
               current c' =
                 mkGameState [mkPosition 10 10] (mkPosition rx ry)
                             (S (foodRef (current c))) RIGHT false false 0
                             (highScore (current c)) INITIAL_SPEED).
  { intros draws.
    destruct (initGame draws (current c)) as [s' |] eqn:M; [| discriminate].
    destruct (initGame_result _ _ _ M) as (rx & ry & rest & -> & ->).
    intros E. injection E as <-. exists rx, ry, rest. split; reflexivity. }
  destruct e as [key | draws | | draws | draws]; simpl; try discriminate.
  - intros ->. intros E.
    destruct (Hinit draws E) as (rx & ry & rest & -> & Hcur).
    exists rx, ry, rest. split; [now right | exact Hcur].
  - intros _ E.
    destruct (Hinit draws E) as (rx & ry & rest & -> & Hcur).
    exists rx, ry, rest. split; [now left | exact Hcur].
Qed.

(** C8. Across any sequence of events the high score never decreases; an
    event that ends the game with the score above the high score sets the
    high score to the score; a restart keeps the high score and resets the
    score to 0 and [gameOver] to false. *)
Theorem highScore_session
        (c : Component) (events : list Event) (c1 : Component)
        (e : Event) (c2 : Component) :
  run c events = Some c1 ->
  step c1 e = Some c2 ->
  highScore (current c) <= highScore (current c1) /\
  highScore (current c1) <= highScore (current c2) /\
  (gameOver (current c1) = false -> gameOver (current c2) = true ->
   score (current c2) > highScore (current c1) ->
   highScore (current c2) = score (current c2)) /\
  (restarts c1 e = true ->
   highScore (current c2) = highScore (current c1) /\
   score (current c2) = 0 /\
   gameOver (current c2) = false).
Proof.
  intros Hrun Hstep.
  split; [eapply run_highScore_le; eassumption |].
  split; [eapply step_highScore_le; eassumption |].
  split.
  - intros Hbefore Hafter Hgt.
    destruct (step_shape c1 e c2 Hstep) as [-> | (s & -> & Hs)];
      [congruence |].
    rewrite gameOver_commit in Hafter. rewrite score_commit in *.
    rewrite highScore_commit, Hafter, Hs. lia.
  - intros Hre.
    destruct (step_restart c1 e c2 Hre Hstep) as (rx & ry & rest & _ & ->).
    repeat split.
Qed.

Lemma highScore_session_witness :
  highScore (current lostBelowBest) <= highScore (current lostBelowBest) /\
  highScore (current lostBelowBest) <=
    highScore (current (afterStep lostBelowBest (ClickRestart [3; 4]))) /\
  (gameOver (current lostBelowBest) = false ->
   gameOver (current (afterStep lostBelowBest (ClickRestart [3; 4]))) = true ->
   score (current (afterStep lostBelowBest (ClickRestart [3; 4])))
   > highScore (current lostBelowBest) ->
   highScore (current (afterStep lostBelowBest (ClickRestart [3; 4])))
   = score (current (afterStep lostBelowBest (ClickRestart [3; 4])))) /\
  (restarts lostBelowBest (ClickRestart [3; 4]) = true ->
   highScore (current (afterStep lostBelowBest (ClickRestart [3; 4]))) =
     highScore (current lostBelowBest) /\
   score (current (afterStep lostBelowBest (ClickRestart [3; 4]))) = 0 /\
   gameOver (current (afterStep lostBelowBest (ClickRestart [3; 4]))) = false).
Proof.
  apply (highScore_session lostBelowBest [] lostBelowBest
                           (ClickRestart [3; 4])
                           (afterStep lostBelowBest (ClickRestart [3; 4]))).
  - vm_compute. reflexivity.
  - vm_compute. reflexivity.
Defined.

(** ** Restart *)

Lemma consistent_over_score (c : Component) :
  consistent c -> gameOver (current c) = true ->
  score (current c) <= highScore (current c).
Proof.
  intros [_ Hs] Hg. pose proof (highScoreEffect_highScore (current c)) as E.
  rewrite Hs, Hg in E. lia.
Qed.

(** While the game is over no event changes the score, unless it restarts
    the game. *)
Lemma step_over_score (c : Component) (e : Event) (c' : Component) :
  coherent c -> gameOver (current c) = true -> step c e = Some c' ->
  gameOver (current c') = false \/
  (score (current c') = score (current c) /\ gameOver (current c') = true).
Proof.
  intros H Hg.
  assert (Hinit : forall draws,
             option_map (commit c) (initGame draws (current c)) = Some c' ->
             gameOver (current c') = false).
  { intros draws.
    destruct (initGame draws (current c)) as [s' |] eqn:M; [| discriminate].
    destruct (initGame_result _ _ _ M) as (rx & ry & rest & _ & ->).
    intros E. injection E as <-. now rewrite gameOver_commit. }
  destruct e as [key | draws | | draws | draws]; simpl.
  - intros E. injection E as <-. right. committed.
    unfold handleKeyDown. rewrite (key_gameOver c H), Hg. auto.
  - unfold loopRunning. rewrite (loop_gameOver c H), Hg, orb_true_r. simpl.
    intros E. injection E as <-. auto.
  - intros E. injection E as <-. right. committed. auto.
  - rewrite Hg. intros E. left. eapply Hinit. eassumption.
  - intros E. left. eapply Hinit. eassumption.
Qed.

(** C9. The Restart button works in every state: it resets snake, direction,
    score and speed to their defaults, places a newly generated food, clears
    the pause and game-over flags, and leaves the high score as it was, so a
    running score is dropped without reaching the high score.  The high
    score changes only in an event that ends the game. *)
Theorem restart_anytime :
  (forall (c : Component) (rx ry : Z) (rest : list Z),
      exists c',
        step c (ClickRestart (rx :: ry :: rest)) = Some c' /\
        snake (current c') = [mkPosition 10 10] /\
        direction (current c') = RIGHT /\
        food (current c') = mkPosition rx ry /\
        score (current c') = 0 /\
        speed (current c') = INITIAL_SPEED /\
        isPaused (current c') = false /\
        gameOver (current c') = false /\
        highScore (current c') = highScore (current c)) /\
  (forall (c : Component) (e : Event) (c' : Component),
      consistent c ->
      step c e = Some c' ->
      highScore (current c') <> highScore (current c) ->
      gameOver (current c) = false /\ gameOver (current c') = true).
Proof.
  split.
  - intros c rx ry rest. eexists. split; [reflexivity |].
    rewrite highScore_commit. committed. simpl. repeat split.
  - intros c e c' Hc Hstep Hne.
    destruct (step_shape c e c' Hstep) as [-> | (s & -> & Hs)];
      [congruence |].
    rewrite highScore_commit, Hs in Hne. rewrite gameOver_commit.
    destruct (gameOver s) eqn:Hafter; [| congruence].
    split; [| reflexivity].
    destruct (gameOver (current c)) eqn:Hbefore; [| reflexivity].
    exfalso.
    destruct (step_over_score c e _ (proj1 Hc) Hbefore Hstep) as [Hg | [Hsc _]].
    + rewrite gameOver_commit in Hg. congruence.
    + rewrite score_commit in Hsc.
      pose proof (consistent_over_score c Hc Hbefore). lia.
Qed.

Lemma restart_anytime_witness :
  (exists c',
      step scored40 (ClickRestart [3; 4]) = Some c' /\
      score (current scored40) = 40 /\
      score (current c') = 0 /\
      highScore (current c') = 0) /\
  (gameOver (current leadingAtWall) = false /\
   gameOver (current (afterStep leadingAtWall (Tick []))) = true).
Proof.
  split.
  - destruct (proj1 restart_anytime scored40 3 4 [])
      as (c' & Hstep & _ & _ & _ & Hscore & _ & _ & _ & Hbest).
    exists c'. split; [exact Hstep |]. split; [vm_compute; reflexivity |].
    split; [exact Hscore |]. rewrite Hbest. vm_compute. reflexivity.
  - apply (proj2 restart_anytime leadingAtWall (Tick [])
                 (afterStep leadingAtWall (Tick []))).
    + split; [constructor |]; vm_compute; reflexivity.
    + vm_compute. reflexivity.
    + vm_compute. discriminate.
Defined.

(** ** Food *)

Lemma step_food_kept (c : Component) (e : Event) (c' : Component) :
  coherent c -> step c e = Some c' -> placesFood c e = false ->
  food (current c') = food (current c) /\
  foodRef (current c') = foodRef (current c).
Proof.
  intros H. destruct e as [key | draws | | draws | draws]; simpl;
    try discriminate.
  - intros E _. injection E as <-. committed.
    split; apply handleKeyDown_kept.
  - destruct (loopRunning c) eqn:Hrun;
      [| intros E _; injection E as <-; split; reflexivity].
    destruct (moveSnake (loopEnv c) draws (current c)) as [s' |] eqn:M;
      [| discriminate].
    intros E Heats. injection E as <-. committed.
    split; apply (moveSnake_not_eating c draws s' H Hrun Heats M).
  - intros E _. injection E as <-. committed. split; reflexivity.
  - intros E Hg. rewrite Hg in E. injection E as <-. split; reflexivity.
Qed.

Lemma step_food_eaten (c : Component) (draws : list Z) (c' : Component) :
  coherent c -> step c (Tick draws) = Some c' -> eats c = true ->
  placeFood (loopEnv c) draws = Some (food (current c')) /\
  foodRef (current c') = S (foodRef (current c)).
Proof.
  intros H Hstep Heats.
  assert (Hrun : loopRunning c = true)
    by (unfold eats in Heats; now apply andb_true_iff in Heats).
  rewrite step_tick_running in Hstep by assumption.
  destruct (moveSnake (loopEnv c) draws (current c)) as [s' |] eqn:M;
    [| discriminate].
  injection Hstep as <-. committed.
  destruct (moveSnake_eating c draws s' H Hrun Heats M)
    as (first & rest & newFood & _ & Hplace & _ & Hfood & Href & _).
  rewrite Hfood, Href. auto.
Qed.

(** C10. At mount the food is the literal cell (5,5): no draw is read and no
    check against the snake is made.  Afterwards the food is replaced only
    by a restart, which takes the next generated cell, and by a tick that
    eats, which takes the result of the re-roll loop. *)
Theorem food_placements :
  (food (current mount) = mkPosition 5 5 /\ foodRef (current mount) = 0%nat) /\
  (forall (c : Component) (e : Event) (c' : Component),
      coherent c -> step c e = Some c' -> placesFood c e = false ->
      food (current c') = food (current c) /\
      foodRef (current c') = foodRef (current c)) /\
  (forall (c : Component) (e : Event) (c' : Component),
      coherent c -> step c e = Some c' -> placesFood c e = true ->
      foodRef (current c') = S (foodRef (current c)) /\
      exists draws,
        (e = Tick draws /\
         placeFood (loopEnv c) draws = Some (food (current c'))) \/
        ((e = ClickRestart draws \/ e = ClickPlayAgain draws) /\
         exists rest, generateFood draws = Some (food (current c'), rest))).
Proof.
  split; [split; reflexivity |]. split; [exact step_food_kept |].
  intros c e c' H Hstep Hplaces.
  destruct (restarts c e) eqn:Hre.
  - destruct (step_restart c e c' Hre Hstep) as (rx & ry & rest & He & ->).
    split; [reflexivity |]. exists (rx :: ry :: rest). right.
    split; [exact He |]. exists rest. reflexivity.
  - destruct e as [key | draws | | draws | draws]; simpl in Hplaces, Hre;
      try congruence.
    destruct (step_food_eaten c draws c' H Hstep Hplaces) as [Hfood Href].
    split; [exact Href |]. exists draws. left.
    split; [reflexivity | exact Hfood].
Qed.

Lemma food_placements_witness :
  (food (current (afterStep mount (KeyDown " "))) = food (current mount) /\
   foodRef (current (afterStep mount (KeyDown " "))) = foodRef (current mount))
  /\
  foodRef (current (afterStep mount (ClickRestart [3; 4]))) = 1%nat.
Proof.
  destruct food_placements as (_ & Hkept & Hplaced). split.
  - apply (Hkept mount (KeyDown " ")).
    + constructor; reflexivity.
    + vm_compute. reflexivity.
    + reflexivity.
  - apply (Hplaced mount (ClickRestart [3; 4])).
    + constructor; reflexivity.
    + vm_compute. reflexivity.
    + reflexivity.
Defined.

(** C1 at its failing inputs. A restart stores the generated cell without
    looking at the snake: with draws 10, 10 the food lies on the reset snake.
    A tick that eats checks the candidate against the snake of the render
    its effect last ran in: in [nextToFood] that snake is [(10,5)], the
    snake after the tick is [(5,5); (6,5)], and with draws 5, 5 the food is
    placed on the new head. *)
Theorem food_placed_on_snake :
  (food (current (afterStep mount (ClickRestart [10; 10])))
   = mkPosition 10 10 /\
   snake (current (afterStep mount (ClickRestart [10; 10])))
   = [mkPosition 10 10])
  /\
  (run mount chase = Some nextToFood /\
   eats nextToFood = true /\
   snake (loopEnv nextToFood) = [mkPosition 10 5] /\
   snake (current nextToFood) = [mkPosition 6 5] /\
   step nextToFood (Tick [5; 5]) = Some (afterStep nextToFood (Tick [5; 5])) /\
   snake (current (afterStep nextToFood (Tick [5; 5])))
   = [mkPosition 5 5; mkPosition 6 5] /\
   food (current (afterStep nextToFood (Tick [5; 5]))) = mkPosition 5 5 /\
   hitsSelf (snake (current (afterStep nextToFood (Tick [5; 5]))))
            (food (current (afterStep nextToFood (Tick [5; 5])))) = true).
Proof. evaluate. Qed.

(** * Further properties of the component *)

(** ** Lists without their last element *)

Lemma removelast_In {A : Type} (a : A) (l : list A) :
  In a (removelast l) -> In a l.
Proof.
  induction l as [| b l IH]; [intros [] |].
  destruct l as [| b' l]; [intros [] |].
  change (removelast (b :: b' :: l)) with (b :: removelast (b' :: l)).
  intros [-> | H]; [now left | right; now apply IH].
Qed.

Lemma removelast_Forall {A : Type} (P : A -> Prop) (l : list A) :
  Forall P l -> Forall P (removelast l).
Proof.
  rewrite !Forall_forall. intros H a Ha. apply H. now apply removelast_In.
Qed.

Lemma removelast_NoDup {A : Type} (l : list A) :
  NoDup l -> NoDup (removelast l).
Proof.
  induction l as [| b l IH]; [intros; constructor |].
  destruct l as [| b' l]; [intros; constructor |].
  change (removelast (b :: b' :: l)) with (b :: removelast (b' :: l)).
  intros H. inversion H as [| ? ? Hb Hl]; subst. constructor.
  - intros Hin. apply Hb. now apply removelast_In.
  - now apply IH.
Qed.

Lemma removelast_chain (cells : list Position) :
  chain cells -> chain (removelast cells).
Proof.
  induction cells as [| a l IH]; [intros; exact I |].
  destruct l as [| b l]; [intros; exact I |].
  change (removelast (a :: b :: l)) with (a :: removelast (b :: l)).
  intros [Hab Hl]. specialize (IH Hl).
  destruct l as [| b' l]; [exact I |].
  change (removelast (b :: b' :: l)) with (b :: removelast (b' :: l)) in *.
  split; assumption.
Qed.

Lemma moveHead_adjacent (d : Direction) (p : Position) :
  adjacent (moveHead d p) p.
Proof. unfold adjacent. destruct d; simpl; lia. Qed.

(** ** The state stays well formed *)

Lemma wellFormed_same (s s' : GameState) :
  snake s' = snake s -> score s' = score s -> speed s' = speed s ->
  wellFormed s -> wellFormed s'.
Proof.
  intros Hsn Hsc Hsp [w1 w2 w3 w4 w5 w6].
  constructor; rewrite ?Hsn, ?Hsc, ?Hsp; assumption.
Qed.

Lemma speedFor_next (points : Z) :
  0 <= points -> points mod 10 = 0 ->
  speedFor (points + 10) =
  if (points >? 0) && (Z.rem points 50 =? 0)
  then Z.max (speedFor points - 10) 50
  else speedFor points.
Proof.
  intros Hpos Hten. unfold speedFor, INITIAL_SPEED.
  rewrite Z.rem_mod_nonneg by lia.
  replace (points + 10 - 10) with points by lia.
  destruct (points + 10 <=? 0) eqn:E1; [apply Z.leb_le in E1; lia |].
  destruct (points >? 0) eqn:E2; cbn [andb].
  - apply Z.gtb_lt in E2.
    destruct (points <=? 0) eqn:E3; [apply Z.leb_le in E3; lia |].
    destruct (points mod 50 =? 0) eqn:E4.
    + apply Z.eqb_eq in E4. Z.div_mod_to_equations. lia.
    + apply Z.eqb_neq in E4. Z.div_mod_to_equations. lia.
  - rewrite Z.gtb_ltb in E2. apply Z.ltb_ge in E2.
    assert (points = 0) as -> by lia. reflexivity.
Qed.

Lemma wellFormed_score (s : GameState) :
  wellFormed s -> 0 <= score s /\ score s mod 10 = 0.
Proof.
  intros [w1 _ _ _ w5 _]. rewrite w5.
  destruct (snake s) as [| a l]; [congruence |]. simpl List.length. split.
  - lia.
  - replace (10 * (Z.of_nat (S (List.length l)) - 1))
      with ((Z.of_nat (S (List.length l)) - 1) * 10) by lia.
    apply Z.mod_mul. lia.
Qed.

Lemma initGame_wellFormed (draws : list Z) (s s' : GameState) :
  initGame draws s = Some s' -> wellFormed s'.
Proof.
  intros H. destruct (initGame_result _ _ _ H) as (rx & ry & rest & _ & ->).
  constructor; simpl.
  - discriminate.
  - constructor; [| constructor]. unfold inGrid, GRID_SIZE. simpl. lia.
  - constructor; [intros [] | constructor].
  - exact I.
  - reflexivity.
  - reflexivity.
Qed.

Lemma handleKeyDown_wellFormed (env : GameState) (key : string)
      (s : GameState) :
  wellFormed s -> wellFormed (handleKeyDown env key s).
Proof.
  apply wellFormed_same; unfold handleKeyDown;
    repeat match goal with
           | |- context [if ?b then _ else _] => destruct b
           end; reflexivity.
Qed.

Lemma moveSnake_wellFormed (env : GameState) (draws : list Z)
      (s s' : GameState) :
  score env = score s -> wellFormed s ->
  moveSnake env draws s = Some s' -> wellFormed s'.
Proof.
  intros Henv Hwf. pose proof Hwf as [w1 w2 w3 w4 w5 w6].
  destruct (snake s) as [| first rest] eqn:Hsnake; [congruence |].
  destruct (hitsWall (moveHead (direction env) first)) eqn:Hw.
  { rewrite (moveSnake_collision _ _ draws first rest Hsnake) by (now left).
    intros E. injection E as <-.
    apply (wellFormed_same s); [reflexivity .. | assumption]. }
  destruct (hitsSelf (snake s) (moveHead (direction env) first)) eqn:Hb.
  { rewrite (moveSnake_collision _ _ draws first rest Hsnake) by (now right).
    intros E. injection E as <-.
    apply (wellFormed_same s); [reflexivity .. | assumption]. }
  pose proof (proj1 (hitsWall_inGrid _) Hw) as Hgrid.
  pose proof (proj1 (hitsSelf_not_In _ _) Hb) as Hfree.
  rewrite Hsnake in Hfree.
  destruct (samePos (moveHead (direction env) first) (food env)) eqn:Hf.
  - rewrite (moveSnake_eat _ _ draws first rest Hsnake Hw Hb Hf).
    destruct (placeFood env draws) as [newFood |]; [| discriminate].
    intros E. injection E as <-.
    destruct (wellFormed_score s Hwf) as [Hpos Hten].
    pose proof (speedFor_next (score s) Hpos Hten) as Hnext.
    rewrite Henv.
    match goal with
    | |- wellFormed ?r =>
        assert (Hsn : snake r = moveHead (direction env) first :: snake s)
          by (destruct ((score s >? 0) && (Z.rem (score s) 50 =? 0));
              reflexivity);
        assert (Hsc : score r = score s + 10)
          by (destruct ((score s >? 0) && (Z.rem (score s) 50 =? 0));
              reflexivity);
        assert (Hsp : speed r =
                      if (score s >? 0) && (Z.rem (score s) 50 =? 0)
                      then Z.max (speed s - 10) 50
                      else speed s)
          by (destruct ((score s >? 0) && (Z.rem (score s) 50 =? 0));
              reflexivity)
    end.
    constructor; rewrite ?Hsp, ?Hsc, ?Hsn, ?Hsnake.
    + discriminate.
    + constructor; assumption.
    + constructor; assumption.
    + split; [apply moveHead_adjacent | assumption].
    + rewrite w5. cbn [List.length]. lia.
    + rewrite Hnext, <- w6. reflexivity.
  - rewrite (moveSnake_move _ _ draws first rest Hsnake Hw Hb Hf).
    intros E. injection E as <-. rewrite Hsnake.
    unfold setSnake.
    constructor; cbn [snake score speed].
    + discriminate.
    + constructor; [assumption | now apply removelast_Forall].
    + constructor; [| now apply removelast_NoDup].
      intros Hin. apply Hfree. now apply removelast_In.
    + apply (removelast_chain (_ :: first :: rest)).
      split; [apply moveHead_adjacent | assumption].
    + rewrite w5. cbn [List.length]. rewrite removelast_cons_length.
      cbn [List.length]. reflexivity.
    + assumption.
Qed.

Lemma highScoreEffect_wellFormed (s : GameState) :
  wellFormed s -> wellFormed (highScoreEffect s).
Proof. apply wellFormed_same; apply (highScoreEffect_fields s). Qed.

Lemma step_wellFormed (c : Component) (e : Event) (c' : Component) :
  coherent c -> wellFormed (current c) -> step c e = Some c' ->
  wellFormed (current c').
Proof.
  intros H Hwf.
  assert (Hinit : forall draws,
             option_map (commit c) (initGame draws (current c)) = Some c' ->
             wellFormed (current c')).
  { intros draws.
    destruct (initGame draws (current c)) as [s' |] eqn:M; [| discriminate].
    intros E. injection E as <-. rewrite current_commit.
    apply highScoreEffect_wellFormed. eapply initGame_wellFormed. eassumption. }
  destruct e as [key | draws | | draws | draws]; simpl.
  - intros E. injection E as <-. rewrite current_commit.
    now apply highScoreEffect_wellFormed, handleKeyDown_wellFormed.
  - destruct (loopRunning c); [| intros E; now injection E as <-].
    destruct (moveSnake (loopEnv c) draws (current c)) as [s' |] eqn:M;
      [| discriminate].
    intros E. injection E as <-. rewrite current_commit.
    apply highScoreEffect_wellFormed.
    apply (moveSnake_wellFormed (loopEnv c) draws (current c));
      [apply (loop_score c H) | assumption | assumption].
  - intros E. injection E as <-. rewrite current_commit.
    apply highScoreEffect_wellFormed.
    apply (wellFormed_same (current c)); [reflexivity .. | assumption].
  - destruct (gameOver (current c)); [apply Hinit |].
    intros E. now injection E as <-.
  - apply Hinit.
Qed.

Lemma mount_wellFormed : wellFormed (current mount).
Proof.
  constructor; simpl.
  - discriminate.
  - constructor; [| constructor]. unfold inGrid, GRID_SIZE. simpl. lia.
  - constructor; [intros [] | constructor].
  - exact I.
  - reflexivity.
  - reflexivity.
Qed.

Lemma reachable_wellFormed (c : Component) :
  reachable c -> wellFormed (current c).
Proof.
  intros [events Hrun].
  enough (consistent c /\ wellFormed (current c)) by tauto.
  revert Hrun.
  apply (run_invariant (fun c => consistent c /\ wellFormed (current c))).
  - intros c0 e c1 [Hc Hwf] Hstep. split.
    + eapply step_consistent; eassumption.
    + eapply step_wellFormed; [apply Hc | eassumption ..].
  - split; [apply mount_consistent | apply mount_wellFormed].
Qed.

(** X1. The snake of a reachable state has a head. *)
Theorem snake_has_head (c : Component) :
  reachable c ->
  exists head body, snake (current c) = head :: body.
Proof.
  intros Hr. destruct (reachable_wellFormed c Hr) as [w1 _ _ _ _ _].
  destruct (snake (current c)) as [| head body]; [congruence |].
  now exists head, body.
Qed.

Lemma snake_has_head_witness :
  exists head body, snake (current scored40) = head :: body.
Proof.
  apply (snake_has_head scored40).
  exists fourMeals. vm_compute. reflexivity.
Defined.

(** X2. Every cell of the snake of a reachable state lies in the grid. *)
Theorem snake_in_grid (c : Component) :
  reachable c -> Forall inGrid (snake (current c)).
Proof. intros Hr. apply (wf_inGrid _ (reachable_wellFormed c Hr)). Qed.

Lemma snake_in_grid_witness : Forall inGrid (snake (current scored40)).
Proof.
  apply (snake_in_grid scored40).
  exists fourMeals. vm_compute. reflexivity.
Defined.

(** X3. No cell occurs twice in the snake of a reachable state. *)
Theorem snake_cells_distinct (c : Component) :
  reachable c -> NoDup (snake (current c)).
Proof. intros Hr. apply (wf_NoDup _ (reachable_wellFormed c Hr)). Qed.

Lemma snake_cells_distinct_witness : NoDup (snake (current scored40)).
Proof.
  apply (snake_cells_distinct scored40).
  exists fourMeals. vm_compute. reflexivity.
Defined.

(** X4. In a reachable state every segment of the snake is one step, along
    one axis, from the segment behind it. *)
Theorem snake_connected (c : Component) :
  reachable c -> chain (snake (current c)).
Proof. intros Hr. apply (wf_chain _ (reachable_wellFormed c Hr)). Qed.

Lemma snake_connected_witness : chain (snake (current scored40)).
Proof.
  apply (snake_connected scored40).
  exists fourMeals. vm_compute. reflexivity.
Defined.

(** X5. In a reachable state the score is ten times the number of segments
    behind the head; so it is a non-negative multiple of 10. *)
Theorem score_counts_segments (c : Component) :
  reachable c ->
  score (current c) =
    10 * (Z.of_nat (List.length (snake (current c))) - 1) /\
  0 <= score (current c) /\
  score (current c) mod 10 = 0.
Proof.
  intros Hr. pose proof (reachable_wellFormed c Hr) as Hwf. split.
  - apply (wf_score _ Hwf).
  - now apply wellFormed_score.
Qed.

Lemma score_counts_segments_witness :
  score (current scored40) =
    10 * (Z.of_nat (List.length (snake (current scored40))) - 1) /\
  0 <= score (current scored40) /\
  score (current scored40) mod 10 = 0.
Proof.
  apply (score_counts_segments scored40).
  exists fourMeals. vm_compute. reflexivity.
Defined.

(** X6. In a reachable state the speed is a function of the score: 150 up
    to score 50, 10 less for each further 50 points, never below 50. *)
Theorem speed_of_score (c : Component) :
  reachable c -> speed (current c) = speedFor (score (current c)).
Proof. intros Hr. apply (wf_speed _ (reachable_wellFormed c Hr)). Qed.

Lemma speed_of_score_witness :
  speed (current scored60) = speedFor (score (current scored60)).
Proof.
  apply (speed_of_score scored60).
  exists (fourMeals ++ [Tick [16; 10]; Tick [17; 10]]). vm_compute. reflexivity.
Defined.

(** ** The snake fits the grid *)

Lemma allCells_complete (p : Position) : inGrid p -> In p allCells.
Proof.
  destruct p as [a b]. unfold inGrid, GRID_SIZE. cbn [x y]. intros [Ha Hb].
  unfold allCells. apply in_flat_map. exists (Z.to_nat a). split.
  - apply in_seq. lia.
  - apply in_map_iff. exists (Z.to_nat b). split.
    + f_equal; lia.
    + apply in_seq. lia.
Qed.

Lemma allCells_length : List.length allCells = 400%nat.
Proof. vm_compute. reflexivity. Qed.

(** X7. The snake of a reachable state has at most 400 segments, and the
    score is at most 3990. *)
Theorem snake_fits_grid (c : Component) :
  reachable c ->
  (List.length (snake (current c)) <= 400)%nat /\ score (current c) <= 3990.
Proof.
  intros Hr. pose proof (reachable_wellFormed c Hr) as [_ w2 w3 _ w5 _].
  assert (Hlen : (List.length (snake (current c)) <= 400)%nat).
  { rewrite <- allCells_length. apply NoDup_incl_length; [assumption |].
    intros p Hp. apply allCells_complete.
    rewrite Forall_forall in w2. now apply w2. }
  split; [assumption | lia].
Qed.

Lemma snake_fits_grid_witness :
  (List.length (snake (current scored40)) <= 400)%nat /\
  score (current scored40) <= 3990.
Proof.
  apply (snake_fits_grid scored40).
  exists fourMeals. vm_compute. reflexivity.
Defined.

(** ** Game over, pause and keys *)

Lemma highScoreEffect_settled (s s' : GameState) :
  gameOver s' = gameOver s -> score s' = score s ->
  highScore s' = highScore s ->
  highScoreEffect s = s -> highScoreEffect s' = s'.
Proof.
  intros Hg Hsc Hhs Hs. unfold highScoreEffect in *. rewrite Hg, Hsc, Hhs.
  destruct (gameOver s && (score s >? highScore s)) eqn:E; [| reflexivity].
  exfalso. apply andb_true_iff in E. destruct E as [_ E]. apply Z.gtb_lt in E.
  assert (Hh : highScore (setHighScore (score s) s) = highScore s)
    by (now rewrite Hs).
  simpl in Hh. lia.
Qed.

(** X9. Once the game is over, every event that is not a restart leaves
    snake, food, direction, score, speed and high score as they are, and the
    game stays over; a tick and a key leave the whole component as it is. *)
Theorem game_over_frozen (c : Component) (e : Event) (c' : Component) :
  consistent c ->
  gameOver (current c) = true ->
  restarts c e = false ->
  step c e = Some c' ->
  (gameOver (current c') = true /\
   snake (current c') = snake (current c) /\
   food (current c') = food (current c) /\
   direction (current c') = direction (current c) /\
   score (current c') = score (current c) /\
   speed (current c') = speed (current c) /\
   highScore (current c') = highScore (current c)) /\
  (e <> ClickPause -> c' = c).
Proof.
  intros Hc Hg Hre. pose proof Hc as [H Hs].
  destruct e as [key | draws | | draws | draws]; simpl in *;
    try discriminate.
  - unfold handleKeyDown. rewrite (key_gameOver c H), Hg.
    rewrite commit_same by assumption.
    intros E. injection E as <-. repeat split; assumption.
  - unfold loopRunning. rewrite (loop_gameOver c H), Hg, orb_true_r. simpl.
    intros E. injection E as <-. repeat split; assumption.
  - intros E. injection E as <-. split; [| congruence].
    rewrite current_commit.
    rewrite (highScoreEffect_settled (current c) (clickPause (current c)))
      by (reflexivity || assumption).
    repeat split; assumption.
  - congruence.
Qed.

Lemma game_over_frozen_witness :
  (gameOver (current (afterStep crashed ClickPause)) = true /\
   snake (current (afterStep crashed ClickPause)) = snake (current crashed) /\
   food (current (afterStep crashed ClickPause)) = food (current crashed) /\
   direction (current (afterStep crashed ClickPause))
   = direction (current crashed) /\
   score (current (afterStep crashed ClickPause)) = score (current crashed) /\
   speed (current (afterStep crashed ClickPause)) = speed (current crashed) /\
   highScore (current (afterStep crashed ClickPause))
   = highScore (current crashed)) /\
  (ClickPause <> ClickPause -> afterStep crashed ClickPause = crashed).
Proof.
  apply (game_over_frozen crashed ClickPause (afterStep crashed ClickPause)).
  - split; [constructor |]; vm_compute; reflexivity.
  - vm_compute. reflexivity.
  - reflexivity.
  - vm_compute. reflexivity.
Defined.

(** X11. A key never moves the snake or the food and never changes score,
    speed, high score or [gameOver]; a key that is neither an arrow nor
    the space changes nothing at all. *)
Theorem keys_keep_game (c : Component) (key : string) :
  consistent c ->
  exists c',
    step c (KeyDown key) = Some c' /\
    snake (current c') = snake (current c) /\
    food (current c') = food (current c) /\
    score (current c') = score (current c) /\
    speed (current c') = speed (current c) /\
    highScore (current c') = highScore (current c) /\
    gameOver (current c') = gameOver (current c) /\
    (isArrow key = false -> key <> " "%string -> c' = c).
Proof.
  intros Hc. pose proof Hc as [H Hs]. eexists. split; [reflexivity |].
  assert (F : forall s,
             snake (handleKeyDown (keyEnv c) key s) = snake s /\
             food (handleKeyDown (keyEnv c) key s) = food s /\
             score (handleKeyDown (keyEnv c) key s) = score s /\
             speed (handleKeyDown (keyEnv c) key s) = speed s /\
             highScore (handleKeyDown (keyEnv c) key s) = highScore s /\
             gameOver (handleKeyDown (keyEnv c) key s) = gameOver s).
  { intros s. unfold handleKeyDown.
    repeat match goal with
           | |- context [if ?b then _ else _] => destruct b
           end; repeat split. }
  destruct (F (current c)) as (F1 & F2 & F3 & F4 & F5 & F6).
  rewrite current_commit.
  rewrite (highScoreEffect_settled
             (current c) (handleKeyDown (keyEnv c) key (current c)))
    by assumption.
  repeat split; try assumption.
  unfold isArrow. rewrite !orb_false_iff. intros [[[A1 A2] A3] A4] Hsp.
  apply String.eqb_neq in Hsp.
  assert (E : handleKeyDown (keyEnv c) key (current c) = current c).
  { unfold handleKeyDown. rewrite A1, A2, A3, A4, Hsp.
    now destruct (gameOver (keyEnv c)). }
  rewrite E. now apply commit_same.
Qed.

Lemma keys_keep_game_witness :
  exists c',
    step scored40 (KeyDown "Escape") = Some c' /\
    snake (current c') = snake (current scored40) /\
    food (current c') = food (current scored40) /\
    score (current c') = score (current scored40) /\
    speed (current c') = speed (current scored40) /\
    highScore (current c') = highScore (current scored40) /\
    gameOver (current c') = gameOver (current scored40) /\
    (isArrow "Escape" = false -> "Escape"%string <> " "%string ->
     c' = scored40).
Proof.
  apply (keys_keep_game scored40 "Escape").
  split; [constructor |]; vm_compute; reflexivity.
Defined.

(** X12. Pressing the Play/Pause button twice brings the state back, and
    the game-loop effect then holds the current render: its copy of the
    snake is the current snake. *)
Theorem pause_twice (c : Component) :
  consistent c ->
  exists c1 c2,
    step c ClickPause = Some c1 /\
    step c1 ClickPause = Some c2 /\
    current c2 = current c /\
    loopEnv c2 = current c.
Proof.
  intros Hc. pose proof Hc as [H Hs].
  assert (Hflip : forall s, clickPause (clickPause s) = s).
  { intros [? ? ? ? ? p ? ? ?]. unfold clickPause, setIsPaused. simpl.
    now rewrite negb_involutive. }
  assert (Hcommit : forall c0,
             consistent c0 ->
             current (commit c0 (clickPause (current c0)))
             = clickPause (current c0) /\
             loopEnv (commit c0 (clickPause (current c0)))
             = clickPause (current c0)).
  { intros c0 [H0 Hs0].
    assert (E : highScoreEffect (clickPause (current c0))
                = clickPause (current c0))
      by (apply (highScoreEffect_settled (current c0));
          (reflexivity || assumption)).
    unfold commit. rewrite E. split; [reflexivity |]. simpl.
    destruct (sameLoopDeps (loopEnv c0) (clickPause (current c0))) eqn:D.
    - apply sameLoopDeps_spec in D. destruct D as (_ & _ & D & _).
      rewrite (loop_isPaused c0 H0) in D. simpl in D.
      now destruct (isPaused (current c0)).
    - rewrite sameLoopDeps_complete; reflexivity. }
  exists (commit c (clickPause (current c))).
  pose proof (step_consistent c ClickPause _ Hc eq_refl) as Hc1.
  destruct (Hcommit c Hc) as [E1 _].
  destruct (Hcommit _ Hc1) as [E2 L2].
  eexists. split; [reflexivity |]. split; [reflexivity |].
  rewrite E2, L2, E1, Hflip. split; reflexivity.
Qed.

Lemma pause_twice_witness :
  exists c1 c2,
    step nextToFood ClickPause = Some c1 /\
    step c1 ClickPause = Some c2 /\
    current c2 = current nextToFood /\
    loopEnv c2 = current nextToFood.
Proof.
  apply (pause_twice nextToFood).
  split; [constructor |]; vm_compute; reflexivity.
Defined.

(** ** The re-roll loop, read off its draws *)

Lemma rerollWhileOccupied_inv (env : GameState) (p : Position) :
  forall (n : nat) (draws : list Z) (newFood : Position),
    (List.length draws <= n)%nat ->
    rerollWhileOccupied env newFood draws = Some p ->
    (isPositionOccupied env newFood = false /\ p = newFood) \/
    (isPositionOccupied env newFood = true /\
     exists cells rest,
       draws = drawsOf cells ++ x p :: y p :: rest /\
       Forall (fun q => isPositionOccupied env q = true) cells /\
       isPositionOccupied env p = false).
Proof.
  induction n as [| n IH]; intros draws newFood Hlen;
    destruct draws as [| rx [| ry rest]]; simpl;
    destruct (isPositionOccupied env newFood) eqn:Occ;
    try discriminate;
    try (intros E; injection E as <-; left; split; reflexivity).
  - simpl in Hlen. lia.
  - intros E. right. split; [reflexivity |].
    apply IH in E; [| simpl in Hlen; lia].
    destruct E as [[Hfree ->] | (Hocc & cells & rest' & -> & Hall & Hfree)].
    + exists [], rest. simpl. repeat split; [constructor | assumption].
    + exists (mkPosition rx ry :: cells), rest'. simpl.
      repeat split; [constructor; assumption | assumption].
Qed.

Lemma placeFood_inv (env : GameState) (draws : list Z) (p : Position) :
  placeFood env draws = Some p ->
  exists cells rest,
    draws = drawsOf cells ++ x p :: y p :: rest /\
    Forall (fun q => isPositionOccupied env q = true) cells /\
    isPositionOccupied env p = false.
Proof.
  unfold placeFood. destruct draws as [| rx [| ry rest]]; try discriminate.
  simpl. intros E.
  apply (rerollWhileOccupied_inv env p (List.length rest)) in E; [| lia].
  destruct E as [[Hfree ->] | (Hocc & cells & rest' & -> & Hall & Hfree)].
  - exists [], rest. simpl. repeat split; [constructor | assumption].
  - exists (mkPosition rx ry :: cells), rest'. simpl.
    repeat split; [constructor; assumption | assumption].
Qed.

(** X13. The re-roll loop returns a cell exactly when the draws, read two
    at a time, hold a cell that is free in the captured snake after only
    occupied ones; that first free cell is the result. *)
Theorem placeFood_first_free (env : GameState) (draws : list Z)
        (p : Position) :
  placeFood env draws = Some p <->
  exists cells rest,
    draws = drawsOf cells ++ x p :: y p :: rest /\
    Forall (fun q => isPositionOccupied env q = true) cells /\
    isPositionOccupied env p = false.
Proof.
  split.
  - apply placeFood_inv.
  - intros (cells & rest & -> & Hall & Hfree). now apply placeFood_finds.
Qed.

Lemma placeFood_first_free_witness :
  placeFood initialState [10; 10; 3; 4; 7] = Some (mkPosition 3 4).
Proof.
  apply (proj2 (placeFood_first_free initialState [10; 10; 3; 4; 7]
                                     (mkPosition 3 4))).
  exists [mkPosition 10 10], [7].
  split; [reflexivity |]. split; [| reflexivity].
  constructor; [reflexivity | constructor].
Defined.

Lemma placeFood_valid (env : GameState) (draws : list Z) (p : Position) :
  validDraws draws -> placeFood env draws = Some p -> inGrid p.
Proof.
  intros Hv Hp. apply placeFood_inv in Hp.
  destruct Hp as (cells & rest & -> & _ & _).
  unfold validDraws in Hv. rewrite Forall_app in Hv. destruct Hv as [_ Hv].
  inversion Hv as [| ? ? Hx Hv']; subst. inversion Hv' as [| ? ? Hy _]; subst.
  split; assumption.
Qed.

(** ** Food and boxes *)

Lemma step_food_inGrid (c : Component) (e : Event) (c' : Component) :
  coherent c -> inGrid (food (current c)) -> validDraws (eventDraws e) ->
  step c e = Some c' -> inGrid (food (current c')).
Proof.
  intros H Hgrid Hv Hstep.
  destruct (placesFood c e) eqn:Hplaces.
  - destruct (restarts c e) eqn:Hre.
    + destruct (step_restart c e c' Hre Hstep)
        as (rx & ry & rest & [-> | ->] & ->);
        simpl in Hv; inversion Hv as [| ? ? Hx Hv']; subst;
        inversion Hv' as [| ? ? Hy _]; subst; split; assumption.
    + destruct e as [key | draws | | draws | draws]; simpl in Hplaces, Hre;
        try congruence.
      destruct (step_food_eaten c draws c' H Hstep Hplaces) as [Hfood _].
      eapply placeFood_valid; eassumption.
  - destruct (step_food_kept c e c' H Hstep Hplaces) as [-> _]. assumption.
Qed.

Lemma run_food_inGrid (events : list Event) :
  forall c c',
    consistent c -> inGrid (food (current c)) -> validEvents events ->
    run c events = Some c' -> inGrid (food (current c')).
Proof.
  induction events as [| e rest IH]; intros c c' Hc Hgrid Hv; simpl.
  - intros E. now injection E as <-.
  - inversion Hv as [| ? ? He Hrest]; subst.
    destruct (step c e) as [c1 |] eqn:S1; [| discriminate].
    apply IH; [eapply step_consistent; eassumption | | assumption].
    eapply step_food_inGrid; [apply Hc | eassumption ..].
Qed.

(** X15. As long as every draw lies in 0..19, the food of a state reached
    from mount lies in the grid, and its box lies inside the board. *)
Theorem food_in_grid (events : list Event) (c : Component) :
  validEvents events ->
  run mount events = Some c ->
  inGrid (food (current c)) /\ inside (foodBox (current c)) boardBox.
Proof.
  intros Hv Hrun.
  assert (Hgrid : inGrid (food (current c))).
  { apply (run_food_inGrid events mount c);
      [apply mount_consistent | | assumption | assumption].
    unfold inGrid, GRID_SIZE. simpl. lia. }
  split; [assumption |].
  destruct Hgrid as [Hx Hy].
  unfold inside, foodBox, boardBox, GRID_SIZE, CELL_SIZE in *. simpl. lia.
Qed.

Lemma food_in_grid_witness :
  inGrid (food (current scored40)) /\
  inside (foodBox (current scored40)) boardBox.
Proof.
  apply (food_in_grid fourMeals scored40).
  - unfold validEvents, validDraws, fourMeals, GRID_SIZE.
    repeat constructor; lia.
  - vm_compute. reflexivity.
Defined.

Lemma segmentViews_inside (cells : list Position) :
  Forall inGrid cells ->
  forall index,
    Forall (fun v => inside (snd v) boardBox) (segmentViews index cells).
Proof.
  induction 1 as [| p cells [Hx Hy] _ IH]; intros index; simpl;
    constructor; [| apply IH].
  unfold inside, segmentBox, boardBox, GRID_SIZE, CELL_SIZE in *. simpl. lia.
Qed.

Lemma segmentBox_apart (p q : Position) :
  p <> q -> ~ overlap (segmentBox p) (segmentBox q).
Proof.
  intros Hne (H1 & H2 & H3 & H4). apply Hne.
  destruct p as [a b], q as [a' b'].
  unfold segmentBox, CELL_SIZE in *. simpl in *. f_equal; lia.
Qed.

Lemma segmentViews_apart (cells : list Position) :
  NoDup cells ->
  forall index,
    ForallOrdPairs (fun v w => ~ overlap (snd v) (snd w))
                   (segmentViews index cells).
Proof.
  induction 1 as [| p cells Hp Hnd IH]; intros index; simpl;
    constructor; [| apply IH].
  assert (Hall : Forall (fun q => p <> q) cells).
  { apply Forall_forall. intros q Hq ->. contradiction. }
  clear Hp Hnd IH. generalize (S index).
  induction Hall as [| q cells Hq _ IH]; intros i; simpl; constructor;
    [now apply segmentBox_apart | apply IH].
Qed.

Lemma segmentViews_boxes (cells : list Position) (index : nat) :
  map snd (segmentViews index cells) = map segmentBox cells.
Proof.
  revert index. induction cells as [| p cells IH]; intros index; simpl;
    [reflexivity |]. now rewrite IH.
Qed.

Lemma segmentViews_classes (cells : list Position) (index : nat) :
  map fst (segmentViews (S index) cells)
  = repeat "bg-green-500"%string (List.length cells).
Proof.
  revert index. induction cells as [| p cells IH]; intros index; simpl;
    [reflexivity |]. now rewrite IH.
Qed.

(** X16. In a reachable state the render draws one box per segment, in the
    order of the snake; every box lies inside the board, no two boxes
    overlap, and the head colour goes to the first box only. *)
Theorem snake_drawn_on_board (c : Component) :
  reachable c ->
  map snd (snakeViews (current c)) = map segmentBox (snake (current c)) /\
  Forall (fun v => inside (snd v) boardBox) (snakeViews (current c)) /\
  ForallOrdPairs (fun v w => ~ overlap (snd v) (snd w))
                 (snakeViews (current c)) /\
  map fst (snakeViews (current c)) =
    "bg-green-600"%string
      :: repeat "bg-green-500"%string
                (List.length (snake (current c)) - 1).
Proof.
  intros Hr. pose proof (reachable_wellFormed c Hr) as [w1 w2 w3 _ _ _].
  unfold snakeViews. repeat split.
  - apply segmentViews_boxes.
  - now apply segmentViews_inside.
  - now apply segmentViews_apart.
  - destruct (snake (current c)) as [| p l]; [congruence |].
    simpl. rewrite segmentViews_classes, Nat.sub_0_r. reflexivity.
Qed.

Lemma snake_drawn_on_board_witness :
  map snd (snakeViews (current scored40))
  = map segmentBox (snake (current scored40)) /\
  Forall (fun v => inside (snd v) boardBox) (snakeViews (current scored40)) /\
  ForallOrdPairs (fun v w => ~ overlap (snd v) (snd w))
                 (snakeViews (current scored40)) /\
  map fst (snakeViews (current scored40)) =
    "bg-green-600"%string
      :: repeat "bg-green-500"%string
                (List.length (snake (current scored40)) - 1).
Proof.
  apply (snake_drawn_on_board scored40).
  exists fourMeals. vm_compute. reflexivity.
Defined.

(** ** Restart and eating, seen from the game loop *)

(** X17. A restart leaves the game running: not paused, not over, with the
    game-loop effect set up in the render of the reset state, so that its
    copy of the snake is the reset snake. *)
Theorem restart_starts_loop (c : Component) (e : Event) (c' : Component) :
  coherent c ->
  restarts c e = true ->
  step c e = Some c' ->
  loopRunning c' = true /\
  loopEnv c' = current c' /\
  snake (loopEnv c') = [mkPosition 10 10].
Proof.
  intros H Hre Hstep.
  destruct (step_restart c e c' Hre Hstep) as (rx & ry & rest & _ & Hcur).
  assert (Hloop : loopEnv c' = current c').
  { assert (Hinit : forall draws,
               option_map (commit c) (initGame draws (current c)) = Some c' ->
               loopEnv c' = current c').
    { intros draws.
      destruct (initGame draws (current c)) as [s' |] eqn:M; [| discriminate].
      destruct (initGame_result _ _ _ M) as (rx' & ry' & rest' & _ & Hs').
      intros E. injection E as <-. unfold commit.
      rewrite highScoreEffect_playing by (now rewrite Hs'). simpl.
      destruct (sameLoopDeps (loopEnv c) s') eqn:D.
      - apply sameLoopDeps_spec in D. destruct D as (_ & D & _).
        rewrite (loop_foodRef c H), Hs' in D. simpl in D.
        exfalso. revert D. apply Nat.neq_succ_diag_r.
      - rewrite sameLoopDeps_complete; reflexivity. }
    destruct e as [key | draws | | draws | draws]; simpl in Hre, Hstep;
      try discriminate.
    - rewrite Hre in Hstep. now apply (Hinit draws).
    - now apply (Hinit draws). }
  unfold loopRunning. rewrite Hloop, Hcur. repeat split.
Qed.

Lemma restart_starts_loop_witness :
  loopRunning (afterStep crashed (ClickPlayAgain [3; 4])) = true /\
  loopEnv (afterStep crashed (ClickPlayAgain [3; 4]))
  = current (afterStep crashed (ClickPlayAgain [3; 4])) /\
  snake (loopEnv (afterStep crashed (ClickPlayAgain [3; 4])))
  = [mkPosition 10 10].
Proof.
  apply (restart_starts_loop crashed (ClickPlayAgain [3; 4])).
  - constructor; vm_compute; reflexivity.
  - vm_compute. reflexivity.
  - vm_compute. reflexivity.
Defined.

(** X18. In a reachable state a tick that eats adds 10 to the score, keeps
    direction, pause flag and [gameOver], and stores a food cell that is
    free in the snake the game-loop effect has captured; after it the effect
    holds the render with the grown snake. *)
Theorem eating_tick (c : Component) (draws : list Z) (c' : Component) :
  reachable c ->
  eats c = true ->
  step c (Tick draws) = Some c' ->
  score (current c') = score (current c) + 10 /\
  direction (current c') = direction (current c) /\
  isPaused (current c') = false /\
  gameOver (current c') = false /\
  isPositionOccupied (loopEnv c) (food (current c')) = false /\
  loopEnv c' = current c'.
Proof.
  intros Hr Heats Hstep.
  pose proof (reachable_consistent c Hr) as [H _].
  assert (Hrun : loopRunning c = true)
    by (unfold eats in Heats; now apply andb_true_iff in Heats).
  destruct (loopRunning_playing c H Hrun) as [Hp Hg].
  destruct (step_food_eaten c draws c' H Hstep Heats) as [Hfood Href].
  apply placeFood_free in Hfood.
  rewrite step_tick_running in Hstep by assumption.
  destruct (moveSnake (loopEnv c) draws (current c)) as [s' |] eqn:M;
    [| discriminate].
  injection Hstep as <-.
  destruct (moveSnake_eating c draws s' H Hrun Heats M)
    as (first & rest & newFood
        & _ & _ & _ & _ & Href' & Hd & Hg' & Hp' & Hsc & _ & _).
  rewrite score_commit, direction_commit, isPaused_commit, gameOver_commit.
  rewrite Hsc, Hd, Hp', Hg', Hp, Hg.
  repeat split; try assumption.
  unfold commit. rewrite highScoreEffect_playing by congruence. simpl.
  destruct (sameLoopDeps (loopEnv c) s') eqn:D.
  - apply sameLoopDeps_spec in D. destruct D as (_ & D & _).
    rewrite (loop_foodRef c H), Href' in D.
    exfalso. revert D. apply Nat.neq_succ_diag_r.
  - rewrite sameLoopDeps_complete; reflexivity.
Qed.

Lemma eating_tick_witness :
  score (current scored50) = score (current scored40) + 10 /\
  direction (current scored50) = direction (current scored40) /\
  isPaused (current scored50) = false /\
  gameOver (current scored50) = false /\
  isPositionOccupied (loopEnv scored40) (food (current scored50)) = false /\
  loopEnv scored50 = current scored50.
Proof.
  apply (eating_tick scored40 [16; 10] scored50).
  - exists fourMeals. vm_compute. reflexivity.
  - vm_compute. reflexivity.
  - vm_compute. reflexivity.
Defined.

(** ** The re-roll loop always has a free cell *)

Lemma Position_eq_dec (p q : Position) : {p = q} + {p <> q}.
Proof. decide equality; apply Z.eq_dec. Defined.

Lemma allCells_NoDup : NoDup allCells.
Proof.
  assert (E : nodup Position_eq_dec allCells = allCells)
    by (vm_compute; reflexivity).
  rewrite <- E. apply NoDup_nodup.
Qed.

Lemma allCells_sound (p : Position) : In p allCells -> inGrid p.
Proof.
  unfold allCells. rewrite in_flat_map. intros (i & Hi & Hp).
  apply in_map_iff in Hp. destruct Hp as (j & <- & Hj).
  apply in_seq in Hi, Hj. unfold inGrid, GRID_SIZE. cbn [x y]. lia.
Qed.

Lemma forallb_false_exists {A : Type} (f : A -> bool) (l : list A) :
  forallb f l = false -> exists a, In a l /\ f a = false.
Proof.
  induction l as [| b l IH]; simpl; [discriminate |].
  destruct (f b) eqn:E; simpl.
  - intros H. destruct (IH H) as (a & Ha & Hf). exists a. auto.
  - intros _. exists b. auto.
Qed.

(** Fewer than 400 cells leave a cell of the grid free. *)
Lemma free_cell_exists (cells : list Position) :
  (List.length cells < 400)%nat ->
  exists p, inGrid p /\ hitsSelf cells p = false.
Proof.
  intros Hlen. destruct (forallb (hitsSelf cells) allCells) eqn:E.
  - exfalso. rewrite forallb_forall in E.
    assert (Hincl : incl allCells cells)
      by (intros p Hp; apply hitsSelf_In; now apply E).
    pose proof (NoDup_incl_length allCells_NoDup Hincl) as Hle.
    rewrite allCells_length in Hle. lia.
  - destruct (forallb_false_exists _ _ E) as (p & Hp & Hfree).
    exists p. split; [now apply allCells_sound | assumption].
Qed.

Lemma commit_loopEnv (c : Component) (s : GameState) :
  loopEnv (commit c s) = loopEnv c \/
  loopEnv (commit c s) = s \/
  loopEnv (commit c s) = highScoreEffect s.
Proof.
  unfold commit, render. simpl.
  destruct (sameLoopDeps (loopEnv c) s);
    match goal with
    | |- context [if ?b then _ else _] => destruct b
    end; auto.
Qed.

Lemma wellFormed_before_effect (s : GameState) :
  wellFormed (highScoreEffect s) -> wellFormed s.
Proof.
  apply wellFormed_same; symmetry; apply (highScoreEffect_fields s).
Qed.

(** The render captured by the game-loop effect is well formed too. *)
Lemma step_captured_wellFormed (c : Component) (e : Event) (c' : Component) :
  coherent c -> wellFormed (current c) -> wellFormed (loopEnv c) ->
  step c e = Some c' -> wellFormed (loopEnv c').
Proof.
  intros H Hcur Hloop Hstep.
  pose proof (step_wellFormed c e c' H Hcur Hstep) as Hcur'.
  destruct (step_shape c e c' Hstep) as [-> | (s & -> & _)];
    [assumption |].
  rewrite current_commit in Hcur'.
  destruct (commit_loopEnv c s) as [-> | [-> | ->]];
    [assumption | now apply wellFormed_before_effect | assumption].
Qed.

Lemma reachable_captured_wellFormed (c : Component) :
  reachable c -> wellFormed (loopEnv c).
Proof.
  intros [events Hrun].
  enough (consistent c /\ wellFormed (current c) /\ wellFormed (loopEnv c))
    by tauto.
  revert Hrun.
  apply (run_invariant
           (fun c => consistent c /\ wellFormed (current c) /\
                     wellFormed (loopEnv c))).
  - intros c0 e c1 (Hc & Hcur & Hloop) Hstep. split; [| split].
    + eapply step_consistent; eassumption.
    + eapply step_wellFormed; [apply Hc | eassumption ..].
    + eapply step_captured_wellFormed; [apply Hc | eassumption ..].
  - split; [apply mount_consistent |].
    split; apply mount_wellFormed.
Qed.

(** The snake captured by the game-loop effect is as long as the current
    one. *)
Lemma reachable_captured_length (c : Component) :
  reachable c ->
  List.length (snake (loopEnv c)) = List.length (snake (current c)).
Proof.
  intros Hr.
  pose proof (reachable_consistent c Hr) as [H _].
  pose proof (wf_score _ (reachable_wellFormed c Hr)) as Hcur.
  pose proof (wf_score _ (reachable_captured_wellFormed c Hr)) as Hloop.
  rewrite (loop_score c H) in Hloop. lia.
Qed.

(** X14. In a reachable state whose tick eats, the snake the re-roll loop
    reads has at most 399 cells, so some cell of the grid is free for it;
    on draws that reach such a cell after any number of occupied ones the
    tick completes and that cell becomes the food.  The loop is never run
    on a full board. *)
Theorem eating_tick_can_complete (c : Component) :
  reachable c ->
  eats c = true ->
  (List.length (snake (loopEnv c)) <= 399)%nat /\
  exists p,
    inGrid p /\
    isPositionOccupied (loopEnv c) p = false /\
    forall cells rest,
      Forall (fun q => isPositionOccupied (loopEnv c) q = true) cells ->
      exists c',
        step c (Tick (drawsOf cells ++ x p :: y p :: rest)) = Some c' /\
        food (current c') = p.
Proof.
  intros Hr Heats.
  pose proof (reachable_consistent c Hr) as [H _].
  pose proof (reachable_wellFormed c Hr) as [_ w2 w3 _ _ _].
  assert (Hrun : loopRunning c = true)
    by (unfold eats in Heats; now apply andb_true_iff in Heats).
  destruct (snake (current c)) as [| first body] eqn:Hsnake;
    [unfold eats in Heats; rewrite Hsnake, andb_false_r in Heats;
     discriminate |].
  pose proof Heats as Heats'.
  rewrite (eats_head c first body H Hrun Hsnake) in Heats'.
  apply andb_true_iff in Heats'. destruct Heats' as [Heats' Hf].
  apply andb_true_iff in Heats'. destruct Heats' as [Hw Hb].
  apply negb_true_iff in Hw, Hb.
  assert (Hlen : (List.length (snake (loopEnv c)) <= 399)%nat).
  { rewrite (reachable_captured_length c Hr), Hsnake.
    assert (Hnd : NoDup (moveHead (direction (loopEnv c)) first
                                  :: first :: body)).
    { constructor; [| assumption].
      rewrite <- Hsnake. now apply hitsSelf_not_In. }
    assert (Hincl : incl (moveHead (direction (loopEnv c)) first
                                   :: first :: body) allCells).
    { intros q [<- | Hq]; apply allCells_complete.
      - now apply hitsWall_inGrid.
      - rewrite Forall_forall in w2. now apply w2. }
    pose proof (NoDup_incl_length Hnd Hincl) as Hle.
    rewrite allCells_length in Hle. simpl in Hle. simpl. lia. }
  split; [assumption |].
  destruct (free_cell_exists (snake (loopEnv c))) as (p & Hgrid & Hfree);
    [lia |].
  exists p. split; [assumption |]. split; [assumption |].
  intros cells rest Hocc.
  rewrite step_tick_running by assumption.
  rewrite (moveSnake_eat _ _ _ first body Hsnake Hw Hb Hf).
  rewrite (placeFood_finds (loopEnv c) cells p rest Hocc Hfree).
  eexists. split; [reflexivity |]. rewrite food_commit.
  destruct ((score (loopEnv c) >? 0) && (Z.rem (score (loopEnv c)) 50 =? 0));
    reflexivity.
Qed.

Lemma eating_tick_can_complete_witness :
  (List.length (snake (loopEnv scored40)) <= 399)%nat /\
  exists p,
    inGrid p /\
    isPositionOccupied (loopEnv scored40) p = false /\
    forall cells rest,
      Forall (fun q => isPositionOccupied (loopEnv scored40) q = true) cells ->
      exists c',
        step scored40 (Tick (drawsOf cells ++ x p :: y p :: rest)) = Some c' /\
        food (current c') = p.
Proof.
  apply (eating_tick_can_complete scored40).
  - exists fourMeals. vm_compute. reflexivity.
  - vm_compute. reflexivity.
Defined.
